(** * SplineComp (openmdao/components/spline_comp.py)

    A shallow embedding of the [SplineComp] component and of the small part
    of numpy it relies on, followed by the properties of its finalization
    ([setup]), evaluation ([compute]) and derivative assembly
    ([compute_partials]).

    Conventions of the embedding:
    - Python exceptions are values of [exn]; code that may raise returns
      [res A].
    - Index arrays ([np.arange], [np.repeat], [np.tile]) are lists of
      natural numbers.  numpy stores them as int64; every entry built by
      [setup] is below the length of the array that holds it, so no
      wrap-around can occur for an array that fits in memory.
    - [vec_size] and [num_cp] are Python ints; the embedding covers the
      non-negative ones (numpy rejects negative dimensions).
    - float64 scalars are an abstract type [T] with two constants (0.0 and
      1.0); the component only copies them.
    - An n-dimensional array is its shape together with its elements in
      C (row-major) order. *)

From stdpp Require Import gmap strings list fin_maps.

(** ** Exceptions and results *)

Inductive exn : Type :=
| ValueError (msg : string)
| TypeError (msg : string)
| AttributeError (msg : string)
| IndexError (msg : string)
| KeyError (key : string)
| OtherError (cls msg : string).

Inductive res (A : Type) : Type :=
| Ret (a : A)
| Raise (e : exn).
Arguments Ret {A} a.
Arguments Raise {A} e.

Definition res_bind {A B} (m : res A) (k : A → res B) : res B :=
  match m with
  | Ret a => k a
  | Raise e => Raise e
  end.

Notation "'let*' x := m 'in' k" := (res_bind m (λ x, k))
  (at level 10, x pattern, m at level 100, k at level 200).

Definition is_Ret {A} (m : res A) : Prop := ∃ a, m = Ret a.
Definition is_Raise {A} (m : res A) : Prop := ∃ e, m = Raise e.

(** [needle] occurs in [hay]. *)
Definition occurs_in (needle hay : string) : Prop :=
  ∃ pre post, hay = pre +:+ needle +:+ post.

(** ** One-dimensional numpy helpers *)

(** [np.arange(n)] *)
Definition np_arange (n : nat) : list nat := seq 0 n.

(** [np.repeat(a, n)]: every element [n] times in a row. *)
Definition np_repeat {A} (a : list A) (n : nat) : list A := a ≫= replicate n.

(** [np.tile(a, n)]: the whole array [n] times. *)
Definition np_tile {A} (a : list A) (n : nat) : list A := mjoin (replicate n a).

(** [c * a] for an int scalar [c]. *)
Definition np_scale (c : nat) (a : list nat) : list nat := Nat.mul c <$> a.

(** [a + b] on 1-D int arrays, with numpy's broadcasting of a length-1
    operand. *)
Definition np_add (a b : list nat) : res (list nat) :=
  if decide (length a = length b) then Ret (zip_with Nat.add a b)
  else match a, b with
       | [x], _ => Ret (Nat.add x <$> b)
       | _, [y] => Ret ((λ x, x + y) <$> a)
       | _, _ => Raise (ValueError "operands could not be broadcast together")
       end.

(** ** Sparsity builder (setup, lines 136-139) *)

Definition sparsity_row (n_interp n_cp : nat) : list nat :=
  np_repeat (np_arange n_interp) n_cp.

Definition sparsity_col (n_interp n_cp : nat) : list nat :=
  np_tile (np_arange n_cp) n_interp.

Definition sparsity_rows (vec_size n_interp n_cp : nat) : res (list nat) :=
  np_add (np_tile (sparsity_row n_interp n_cp) vec_size)
         (np_repeat (np_scale n_interp (np_arange vec_size)) (n_interp * n_cp)).

Definition sparsity_cols (vec_size n_interp n_cp : nat) : res (list nat) :=
  np_add (np_tile (sparsity_col n_interp n_cp) vec_size)
         (np_repeat (np_scale n_cp (np_arange vec_size)) (n_interp * n_cp)).

(** ** n-dimensional arrays *)

(** float64 scalars: only the two constants used by [np.zeros] and
    [np.ones] are needed. *)
Class Float64 (T : Type) := { f_zero : T; f_one : T }.

Record ndarray (T : Type) : Type := mk_ndarray {
  shape : list nat;
  data : list T   (* the elements in C order *)
}.
Arguments mk_ndarray {T} shape data.
Arguments shape {T} _.
Arguments data {T} _.

(** Number of elements of an array of shape [s]. *)
Definition size_of (s : list nat) : nat := foldr Nat.mul 1 s.

Definition wf_ndarray {T} (a : ndarray T) : Prop :=
  length (data a) = size_of (shape a).

Definition ndim {T} (a : ndarray T) : nat := length (shape a).

Definition np_full {T} (s : list nat) (x : T) : ndarray T :=
  mk_ndarray s (replicate (size_of s) x).

Definition np_ones {T} `{!Float64 T} (s : list nat) : ndarray T := np_full s f_one.
Definition np_zeros {T} `{!Float64 T} (s : list nat) : ndarray T := np_full s f_zero.

(** [a.reshape(s)] *)
Definition np_reshape {T} (a : ndarray T) (s : list nat) : res (ndarray T) :=
  if decide (size_of s = length (data a)) then Ret (mk_ndarray s (data a))
  else Raise (ValueError "cannot reshape array into the requested shape").

(** [a.flatten()] *)
Definition np_flatten {T} (a : ndarray T) : ndarray T :=
  mk_ndarray [length (data a)] (data a).

(** Element [a[idx]] of an array, by the row-major offset of [idx]. *)
Fixpoint ravel (s idx : list nat) (acc : nat) : option nat :=
  match s, idx with
  | [], [] => Some acc
  | n :: s', i :: idx' => if decide (i < n) then ravel s' idx' (acc * n + i) else None
  | _, _ => None
  end.

Definition np_item {T} (a : ndarray T) (idx : list nat) : option T :=
  off ← ravel (shape a) idx 0; data a !! off.

(** [a[b]] for an array of at least one dimension: the [b]-th block along
    the first axis. *)
Definition np_block {T} (a : ndarray T) (b : nat) : ndarray T :=
  let s := tail (shape a) in
  mk_ndarray s (take (size_of s) (drop (b * size_of s) (data a))).

(** The shape test of broadcasting, for shapes of the same number of
    dimensions: along each axis the extents agree or the source has
    extent 1. *)
Fixpoint bcast_ok (src tgt : list nat) : bool :=
  match src, tgt with
  | [], [] => true
  | m :: src', n :: tgt' =>
      (bool_decide (m = n) || bool_decide (m = 1)) && bcast_ok src' tgt'
  | _, _ => false
  end.

(** The elements, in C order, of the broadcast to shape [tgt] of an array
    of shape [src] with elements [d]: an axis of equal extent is traversed
    block by block, an axis of extent 1 is replicated. *)
Fixpoint bcast {T} (src tgt : list nat) (d : list T) : list T :=
  match src, tgt with
  | m :: src', n :: tgt' =>
      if decide (m = n) then
        mjoin (bcast src' tgt' <$> reshape (replicate m (size_of src')) d)
      else mjoin (replicate n (bcast src' tgt' d))
  | _, _ => d
  end.

(** A shape of fewer dimensions is aligned to the right. *)
Definition pad_shape (n : nat) (s : list nat) : list nat :=
  replicate (n - length s) 1 ++ s.

(** [np.broadcast_to(a, tgt)] *)
Definition np_broadcast_to {T} (a : ndarray T) (tgt : list nat) : res (ndarray T) :=
  if decide (ndim a ≤ length tgt) then
    if bcast_ok (pad_shape (length tgt) (shape a)) tgt then
      Ret (mk_ndarray tgt (bcast (pad_shape (length tgt) (shape a)) tgt (data a)))
    else Raise (ValueError "operands could not be broadcast together with remapped shapes")
  else Raise (ValueError "input operand has more dimensions than allowed by the axis remapping").

(** Assignment strips leading axes of extent 1 from a source that has more
    dimensions than the destination. *)
Fixpoint strip_ones (extra : nat) (s : list nat) : list nat :=
  match extra, s with
  | S extra', 1 :: s' => strip_ones extra' s'
  | _, _ => s
  end.

(** Whether an array of shape [s] can be assigned to a destination of
    shape [dshape]. *)
Definition assignable (s dshape : list nat) : bool :=
  let s' := strip_ones (length s - length dshape) s in
  bool_decide (length s' ≤ length dshape) &&
  bcast_ok (pad_shape (length dshape) s') dshape.

(** The elements written by [dst[...] = src] into a destination (view) of
    shape [dshape]. *)
Definition np_assign_data {T} (dshape : list nat) (src : ndarray T) : res (list T) :=
  if assignable (shape src) dshape then
    Ret (bcast (pad_shape (length dshape)
                  (strip_ones (ndim src - length dshape) (shape src)))
           dshape (data src))
  else Raise (ValueError "could not broadcast input array into the shape of the destination").

(** [dst[:] = src] *)
Definition np_setall {T} (dst src : ndarray T) : res (ndarray T) :=
  let* d := np_assign_data (shape dst) src in Ret (mk_ndarray (shape dst) d).

(** [dst[k, :] = val] for a two-dimensional [dst]. *)
Definition np_setrow {T} (dst : ndarray T) (k : nat) (val : ndarray T) : res (ndarray T) :=
  match shape dst with
  | [n; m] =>
      if decide (k < n) then
        let* row := np_assign_data [m] val in
        Ret (mk_ndarray [n; m]
               (take (k * m) (data dst) ++ row ++ drop (k * m + m) (data dst)))
      else Raise (IndexError "index is out of bounds for axis 0")
  | _ => Raise (IndexError "too many indices for array")
  end.

(** [a[0, :]] *)
Definition np_first_row {T} (a : ndarray T) : res (ndarray T) :=
  match shape a with
  | n :: m :: rest =>
      if decide (0 < n) then
        Ret (mk_ndarray (m :: rest) (take (size_of (m :: rest)) (data a)))
      else Raise (IndexError "index 0 is out of bounds for axis 0 with size 0")
  | _ => Raise (IndexError "too many indices for array")
  end.

(** [x[k:k + 1]] *)
Definition slice1 {T} (x : list T) (k : nat) : list T := take 1 (drop k x).

(** ** Stateful code: a state and exception monad

    A method mutates the object it runs on and may raise; the state at the
    moment of the raise is kept. *)

Definition M (S A : Type) : Type := S → res A * S.

Definition m_ret {S A} (a : A) : M S A := λ s, (Ret a, s).
Definition m_raise {S A} (e : exn) : M S A := λ s, (Raise e, s).
Definition m_bind {S A B} (m : M S A) (k : A → M S B) : M S B :=
  λ s, match m s with
       | (Ret a, s') => k a s'
       | (Raise e, s') => (Raise e, s')
       end.
Definition m_get {S} : M S S := λ s, (Ret s, s).
Definition m_modify {S} (f : S → S) : M S unit := λ s, (Ret tt, f s).
Definition m_lift {S A} (r : res A) : M S A := λ s, (r, s).

Notation "'do' x <- m ; k" := (m_bind m (λ x, k))
  (at level 10, x pattern, m at level 100, k at level 200).

(** [for x in l: body(x)] *)
Fixpoint m_for {S A} (l : list A) (body : A → M S unit) : M S unit :=
  match l with
  | [] => m_ret tt
  | x :: l' => do _ <- body x; m_for l' body
  end.

(** The same loop for pure code that may raise, threading an accumulator. *)
Fixpoint res_fold {A B} (body : B → A → res B) (acc : B) (l : list A) : res B :=
  match l with
  | [] => Ret acc
  | x :: l' => let* acc' := body acc x in res_fold body acc' l'
  end.

(** A Python dict that is iterated over: keys in insertion order; assigning
    to a key that is present keeps its position. *)
Fixpoint dict_set {V} (k : string) (v : V) (d : list (string * V)) : list (string * V) :=
  match d with
  | [] => [(k, v)]
  | (k', v') :: d' => if decide (k' = k) then (k, v) :: d' else (k', v') :: dict_set k v d'
  end.

(** ** The interpolation engine (InterpND) and the host component

    [InterpND] (openmdao/components/interp_util) and [ExplicitComponent]
    (openmdao/core) are not among the sources; the component is verified
    against their interfaces. *)

(** What an engine leaves in [_d_dvalues]: a dense array, or a scipy sparse
    matrix (always two-dimensional), given by its dense content. *)
Inductive deriv (T : Type) : Type :=
| Dense (a : ndarray T)
| Sparse (nrows ncols : nat) (content : list T).
Arguments Dense {T} a.
Arguments Sparse {T} nrows ncols content.

Definition deriv_shape {T} (d : deriv T) : list nat :=
  match d with
  | Dense a => shape a
  | Sparse r c _ => [r; c]
  end.

(** [d.toarray()] *)
Definition deriv_toarray {T} (d : deriv T) : res (ndarray T) :=
  match d with
  | Dense _ => Raise (AttributeError "'numpy.ndarray' object has no attribute 'toarray'")
  | Sparse r c content => Ret (mk_ndarray [r; c] content)
  end.

Definition wf_deriv {T} (d : deriv T) : Prop :=
  match d with
  | Dense a => wf_ndarray a
  | Sparse r c content => length content = r * c
  end.

(** The grid handed to the engine: [np.asarray(x_cp_val)] or
    [np.arange(n_cp)]. *)
Inductive grid (T : Type) : Type :=
| GridValues (xs : list T)
| GridRange (idx : list nat).
Arguments GridValues {T} xs.
Arguments GridRange {T} idx.

Record InterpND (T Core : Type) : Type := mk_InterpND {
  _compute_d_dvalues : bool;
  _compute_d_dx : bool;
  x_interp : list T;
  _d_dvalues : option (deriv T);
  core : Core   (* the rest of the engine's state *)
}.
Arguments mk_InterpND {T Core} _ _ _ _ _.
Arguments _compute_d_dvalues {T Core} _.
Arguments _compute_d_dx {T Core} _.
Arguments x_interp {T Core} _.
Arguments _d_dvalues {T Core} _.
Arguments core {T Core} _.

(** Modelled from the spec: the engine [InterpND], consumed through the
    interface of section 6 of the specification: a constructor,
    [evaluate_spline], [training_gradients], and (in the record [InterpND]
    above) the two flags set before an evaluation, the query locations and
    the derivative cache [_d_dvalues]. *)
Class Engine (T : Type) : Type := {
  Core : Type;
  Opts : Type;   (* the dict of method-specific options *)
  (** [InterpND((grid,), cp_val, interp_method=, x_interp=, bounds_error=, **opts)] *)
  InterpND_init :
    grid T → ndarray T → string → list T → bool → Opts → res (InterpND T Core);
  (** [interp.evaluate_spline(values)]: result and the engine afterwards *)
  evaluate_spline :
    InterpND T Core → ndarray T → res (ndarray T) * InterpND T Core;
  (** [interp.training_gradients(pt)] *)
  training_gradients : InterpND T Core → list T → res (ndarray T)
}.

Inductive host_call (T : Type) : Type :=
| add_output (name : string) (val : ndarray T) (units : option string)
| add_input (name : string) (val : ndarray T)
| declare_partials (of_name wrt_name : string) (rows cols : list nat)
| set_check_partial_options (wrt method : string).
Arguments add_output {T} name val units.
Arguments add_input {T} name val.
Arguments declare_partials {T} of_name wrt_name rows cols.
Arguments set_check_partial_options {T} wrt method.

(** Modelled from the spec: the host [ExplicitComponent], consumed through
    [add_output], [add_input], [declare_partials] and
    [set_check_partial_options].  The calls the host accepts are recorded
    in order; the host may refuse any call by raising. *)
Class Host (T : Type) : Type := {
  (** the exception, if any, with which the host answers a call, given the
      calls it has accepted so far *)
  host_refuses : list (host_call T) → host_call T → option exn
}.

(** ** The component's data *)

Definition ALL_METHODS : list string :=
  ["cubic"; "slinear"; "lagrange2"; "lagrange3"; "akima"; "bsplines"].

(** [y_cp_val] as [add_spline] documents it: a list or an ndarray. *)
Inductive cp_val (T : Type) : Type :=
| CpList (l : list T)
| CpArray (a : ndarray T).
Arguments CpList {T} l.
Arguments CpArray {T} a.

(** One entry of [_spline_cache]. *)
Record spline_args (T : Type) : Type := mk_spline_args {
  y_cp_name : string;
  y_interp_name : string;
  y_cp_val : option (cp_val T);
  y_units : option string
}.
Arguments mk_spline_args {T} _ _ _ _.
Arguments y_cp_name {T} _.
Arguments y_interp_name {T} _.
Arguments y_cp_val {T} _.
Arguments y_units {T} _.

(** [self.options], as declared by [_declare_options].  [x_interp_val] and
    [x_cp_val] are one-dimensional sequences of positions. *)
Record Options (T O : Type) : Type := mk_Options {
  vec_size : nat;
  method : string;
  x_interp_val : list T;
  x_cp_val : option (list T);
  num_cp : option nat;
  interp_options : O
}.
Arguments mk_Options {T O} _ _ _ _ _ _.
Arguments vec_size {T O} _.
Arguments method {T O} _.
Arguments x_interp_val {T O} _.
Arguments x_cp_val {T O} _.
Arguments num_cp {T O} _.
Arguments interp_options {T O} _.

(** The defaults of [_declare_options]; [x_interp_val] has none. *)
Definition declared_options {T O} (x_interp_val : list T) (interp_options : O) : Options T O :=
  mk_Options 1 "akima" x_interp_val None None interp_options.

(** The values the declaration of ['method'] accepts. *)
Definition method_accepted {T O} (o : Options T O) : Prop := method o ∈ ALL_METHODS.

(** The object: its own attributes, and the calls it has made to the
    host. *)
Record SplineComp (T C O : Type) : Type := mk_SplineComp {
  options : Options T O;
  msginfo : string;
  interp_to_cp : gmap string string;
  interps : list (string * InterpND T C);
  _spline_cache : list (spline_args T);
  _n_cp : option nat;
  host_calls : list (host_call T)
}.
Arguments mk_SplineComp {T C O} _ _ _ _ _ _ _.
Arguments options {T C O} _.
Arguments msginfo {T C O} _.
Arguments interp_to_cp {T C O} _.
Arguments interps {T C O} _.
Arguments _spline_cache {T C O} _.
Arguments _n_cp {T C O} _.
Arguments host_calls {T C O} _.

Definition set_interp_to_cp {T C O} (f : gmap string string → gmap string string)
    (c : SplineComp T C O) : SplineComp T C O :=
  mk_SplineComp (options c) (msginfo c) (f (interp_to_cp c)) (interps c)
    (_spline_cache c) (_n_cp c) (host_calls c).

Definition set_interps {T C O}
    (f : list (string * InterpND T C) → list (string * InterpND T C))
    (c : SplineComp T C O) : SplineComp T C O :=
  mk_SplineComp (options c) (msginfo c) (interp_to_cp c) (f (interps c))
    (_spline_cache c) (_n_cp c) (host_calls c).

Definition set_spline_cache {T C O} (f : list (spline_args T) → list (spline_args T))
    (c : SplineComp T C O) : SplineComp T C O :=
  mk_SplineComp (options c) (msginfo c) (interp_to_cp c) (interps c)
    (f (_spline_cache c)) (_n_cp c) (host_calls c).

Definition set_n_cp {T C O} (n : option nat) (c : SplineComp T C O) : SplineComp T C O :=
  mk_SplineComp (options c) (msginfo c) (interp_to_cp c) (interps c)
    (_spline_cache c) n (host_calls c).

Definition set_host_calls {T C O} (f : list (host_call T) → list (host_call T))
    (c : SplineComp T C O) : SplineComp T C O :=
  mk_SplineComp (options c) (msginfo c) (interp_to_cp c) (interps c)
    (_spline_cache c) (_n_cp c) (f (host_calls c)).

(** [d[k]] on a dict *)
Definition dict_get {K V} `{Countable K} (show : K → string) (d : gmap K V) (k : K) : res V :=
  match d !! k with
  | Some v => Ret v
  | None => Raise (KeyError (show k))
  end.

(** The newline of the message of [compute]. *)
Definition newline : string := String (Ascii.ascii_of_nat 10) EmptyString.

(** ** The component's methods *)

Section methods.
Context {T : Type} `{!Float64 T} `{!Engine T} `{!Host T}.

Local Abbreviation Comp := (SplineComp T Core Opts).
Local Abbreviation Interp := (InterpND T Core).

(** [__init__] *)
Definition SplineComp_init (o : Options T Opts) (info : string) : Comp :=
  mk_SplineComp o info ∅ [] [] None [].

(** [add_spline] *)
Definition add_spline (y_cp_name y_interp_name : string)
    (y_cp_val : option (cp_val T)) (y_units : option string) : M Comp unit :=
  m_modify (set_spline_cache
              (λ l, l ++ [mk_spline_args y_cp_name y_interp_name y_cp_val y_units])).

(** A call to a method of the host. *)
Definition call_host (call : host_call T) : M Comp unit :=
  λ c, match host_refuses (host_calls c) call with
       | Some e => (Raise e, c)
       | None => (Ret tt, set_host_calls (λ l, l ++ [call]) c)
       end.

(** [setup], lines 88-112: the grid and the number of control points. *)
Definition resolve_grid (info : string) (o : Options T Opts) : res (grid T * nat) :=
  match x_cp_val o with
  | Some xs =>
      if bool_decide (method o = "bsplines") then
        Raise (ValueError (info +:+ ": 'x_cp_val' is not a valid option when using method 'bsplines'. " +:+ "Set 'num_cp' instead."))
      else
        match num_cp o with
        | Some _ =>
            Raise (ValueError (info +:+ ": It is not valid to set both options 'x_cp_val' and 'num_cp'."))
        | None => Ret (GridValues xs, length xs)
        end
  | None =>
      match num_cp o with
      | Some n => Ret (GridRange (np_arange n), n)
      | None =>
          Raise (ValueError (info +:+ ": Either option 'x_cp_val' or 'num_cp' must be set."))
      end
  end.

(** [setup], lines 126-130: the value the input is registered with. *)
Definition default_y_cp_val (vec_size n_cp : nat) (v : option (cp_val T)) : res (ndarray T) :=
  match v with
  | None => Ret (np_ones [vec_size; n_cp])
  | Some (CpList _) => Raise (AttributeError "'list' object has no attribute 'shape'")
  | Some (CpArray a) =>
      if decide (ndim a < 2) then np_reshape a [vec_size; n_cp] else Ret a
  end.

(** [setup], lines 122-149: the body of the loop over [_spline_cache]. *)
Definition setup_spline (g : grid T) (n_cp : nat) (opts : Opts) (vec_size n_interp : nat)
    (sp : spline_args T) : M Comp unit :=
  do c <- m_get;
  do _ <- call_host (add_output (y_interp_name sp) (np_ones [vec_size; n_interp]) (y_units sp));
  do y_cp_val <- m_lift (default_y_cp_val vec_size n_cp (y_cp_val sp));
  do _ <- call_host (add_input (y_cp_name sp) y_cp_val);
  do _ <- m_modify (set_interp_to_cp <[y_interp_name sp := y_cp_name sp]>);
  do rows <- m_lift (sparsity_rows vec_size n_interp n_cp);
  do cols <- m_lift (sparsity_cols vec_size n_interp n_cp);
  do _ <- call_host (declare_partials (y_interp_name sp) (y_cp_name sp) rows cols);
  do cp_val <- m_lift (np_first_row y_cp_val);
  do interp <- m_lift (InterpND_init g cp_val (method (options c))
                         (x_interp_val (options c)) false opts);
  m_modify (set_interps (dict_set (y_interp_name sp) interp)).

(** [setup] *)
Definition setup : M Comp unit :=
  do c <- m_get;
  do gn <- m_lift (resolve_grid (msginfo c) (options c));
  do _ <- m_modify (set_n_cp (Some gn.2));
  let opts := interp_options (options c) in
  let vec_size := vec_size (options c) in
  let n_interp := length (x_interp_val (options c)) in
  do _ <- m_for (_spline_cache c) (setup_spline gn.1 gn.2 opts vec_size n_interp);
  if String.prefix "scipy" (method (options c)) then
    call_host (set_check_partial_options "*" "fd")
  else m_ret tt.

(** The calls one iteration of the loop of [setup] makes to the host when
    neither the host nor the engine raises. *)
Definition spline_calls (vec_size n_interp n_cp : nat) (sp : spline_args T)
    : list (host_call T) :=
  add_output (y_interp_name sp) (np_ones [vec_size; n_interp]) (y_units sp) ::
  match default_y_cp_val vec_size n_cp (y_cp_val sp),
        sparsity_rows vec_size n_interp n_cp,
        sparsity_cols vec_size n_interp n_cp with
  | Ret v, Ret rows, Ret cols =>
      [add_input (y_cp_name sp) v;
       declare_partials (y_interp_name sp) (y_cp_name sp) rows cols]
  | Ret v, _, _ => [add_input (y_cp_name sp) v]
  | _, _, _ => []
  end.

(** The state of a [compute] call: the object, the output vector, and
    (as a record of what happened) the outputs whose engine has been
    evaluated, in order. *)
Record compute_state : Type := mk_compute_state {
  self : Comp;
  outputs : gmap string (ndarray T);
  evaluated : list string
}.

Definition error_interpolating (info out_name err : string) : string :=
  info +:+ ": Error interpolating output '" +:+ out_name +:+ "':" +:+ newline +:+ err.

(** [compute], lines 167-177: the body of the loop over [interps].  The
    write to the output vector is an insertion into a map: what the host's
    vector may refuse is outside this development. *)
Definition compute_spline (inputs : gmap string (ndarray T))
    (item : string * Interp) : M compute_state unit :=
  let out_name := item.1 in
  let interp := item.2 in
  do st <- m_get;
  do cp_name <- m_lift (dict_get id (interp_to_cp (self st)) out_name);
  do values <- m_lift (dict_get id inputs cp_name);
  let interp1 :=
    mk_InterpND true false (x_interp_val (options (self st)))
      (_d_dvalues interp) (core interp) in
  let r := evaluate_spline interp1 values in
  do _ <- m_modify (λ st,
            mk_compute_state (set_interps (dict_set out_name r.2) (self st))
              (outputs st) (evaluated st ++ [out_name]));
  match r.1 with
  | Ret v =>
      m_modify (λ st, mk_compute_state (self st) (<[out_name := v]> (outputs st))
                        (evaluated st))
  | Raise (ValueError err) =>
      m_raise (ValueError (error_interpolating (msginfo (self st)) out_name err))
  | Raise e => m_raise e
  end.

(** [compute] *)
Definition compute (inputs : gmap string (ndarray T)) : M compute_state unit :=
  do st <- m_get;
  m_for (interps (self st)) (compute_spline inputs).

Definition shape0 (s : list nat) : res nat :=
  match s with
  | n :: _ => Ret n
  | [] => Raise (IndexError "tuple index out of range")
  end.

(** [compute_partials], lines 201-219: the array [dy_ddata] of one
    spline.  [n_cp] is [self._n_cp], which is [None] before [setup]. *)
Definition assemble_dy_ddata (vec_size n_interp : nat) (n_cp : option nat)
    (x_interp_val : list T) (interp : Interp) : res (ndarray T) :=
  match _d_dvalues interp with
  | Some d_dvalues =>
      let* n_cp := from_option Ret (Raise (TypeError "'NoneType' object cannot be interpreted as an integer")) n_cp in
      let dy_ddata := np_zeros [vec_size; n_interp; n_cp] in
      let* s0 := shape0 (deriv_shape d_dvalues) in
      if decide (s0 = vec_size) then
        match d_dvalues with
        | Dense a => np_setall dy_ddata a
        | Sparse _ _ _ => Raise (ValueError "setting an array element with a sequence.")
        end
      else
        let* arr := deriv_toarray d_dvalues in
        let* b := np_broadcast_to arr [vec_size; n_interp; n_cp] in
        np_setall dy_ddata b
  | None =>
      let* n_cp := from_option Ret (Raise (TypeError "'NoneType' object cannot be interpreted as an integer")) n_cp in
      let dy_ddata := np_zeros [n_interp; n_cp] in
      let* dy_ddata :=
        res_fold (λ dy k,
                    let* val := training_gradients interp (slice1 x_interp_val k) in
                    np_setrow dy k val)
                 dy_ddata (seq 0 n_interp) in
      np_broadcast_to dy_ddata [vec_size; n_interp; n_cp]
  end.

(** [compute_partials], lines 199-221: the body of the loop. *)
Definition compute_partials_spline (c : Comp) (item : string * Interp)
    : M (gmap (string * string) (ndarray T)) unit :=
  let out_name := item.1 in
  let interp := item.2 in
  do cp_name <- m_lift (dict_get id (interp_to_cp c) out_name);
  do dy_ddata <- m_lift (assemble_dy_ddata (vec_size (options c))
                           (length (x_interp_val (options c))) (_n_cp c)
                           (x_interp_val (options c)) interp);
  m_modify <[(out_name, cp_name) := np_flatten dy_ddata]>.

(** [compute_partials]; the state is the host's [partials]. *)
Definition compute_partials (c : Comp) : M (gmap (string * string) (ndarray T)) unit :=
  m_for (interps c) (compute_partials_spline c).
End methods.

(** ** Predicates used in the statements *)

(** [rows] and [cols] describe the dense [n_interp] x [n_cp] block, once
    per batch element, block [b] shifted by [b * n_interp] rows and
    [b * n_cp] columns, row-major over [(k, j)] inside a block. *)
Definition dense_block_pattern (B n_interp n_cp : nat) (rows cols : list nat) : Prop :=
  length rows = B * n_interp * n_cp ∧
  length cols = B * n_interp * n_cp ∧
  ∀ b k j, b < B → k < n_interp → j < n_cp →
    rows !! (b * (n_interp * n_cp) + k * n_cp + j) = Some (b * n_interp + k) ∧
    cols !! (b * (n_interp * n_cp) + k * n_cp + j) = Some (b * n_cp + j).

(** The configurations of the two grid options that the specification
    allows: exactly one of [x_cp_val] and [num_cp] is set, and [x_cp_val]
    is not set together with the method 'bsplines'. *)
Definition grid_options_valid {T O} (o : Options T O) : Prop :=
  (is_Some (x_cp_val o) ∧ num_cp o = None ∨ x_cp_val o = None ∧ is_Some (num_cp o)) ∧
  ¬ (method o = "bsplines" ∧ is_Some (x_cp_val o)).

(** The engine hands over well-formed arrays: the derivative cache, or
    else every gradient it is asked for. *)
Definition engine_output_wf {T} `{!Engine T} (x_interp_val : list T)
    (interp : InterpND T Core) : Prop :=
  match _d_dvalues interp with
  | Some d => wf_deriv d
  | None => ∀ k v, training_gradients interp (slice1 x_interp_val k) = Ret v →
                   wf_ndarray v
  end.

(** The derivative is the same for every batch element: the engine left a
    sparse matrix whose leading extent differs from the batch size, or no
    derivative at all. *)
Definition batch_invariant_source {T} (B : nat) (d : option (deriv T)) : Prop :=
  match d with
  | Some (Sparse r _ _) => r ≠ B
  | Some (Dense _) => False
  | None => True
  end.

(** The source has the extents the component expects: a sparse matrix of
    [n_interp] rows and [n_cp] columns, or a gradient of [n_cp] elements at
    every query point. *)
Definition expected_source {T} `{!Engine T} (n_interp n_cp : nat)
    (x_interp_val : list T) (interp : InterpND T Core) : Prop :=
  match _d_dvalues interp with
  | Some (Sparse r c content) => r = n_interp ∧ c = n_cp
  | Some (Dense _) => False
  | None => ∀ k, k < n_interp →
                 ∃ v, training_gradients interp (slice1 x_interp_val k) = Ret v ∧
                      shape v = [n_cp]
  end.


(** The engine as [compute] hands it to [evaluate_spline]: derivatives
    with respect to the values requested, those with respect to the
    positions not, and the query locations taken from the options. *)
Definition with_flags {T C} (x : list T) (interp : InterpND T C) : InterpND T C :=
  mk_InterpND true false x (_d_dvalues interp) (core interp).

(** [flat] is the row-major flattening of the array [dy] of shape
    [(B, n_interp, n_cp)]: it is one-dimensional with [B * n_interp * n_cp]
    elements, reshaping it gives [dy] back, its element at position
    [b * (n_interp * n_cp) + k * n_cp + j] is [dy[b, k, j]], and its
    element [i] is the entry at row [rows[i]] and column [cols[i]] of the
    pattern of [setup], in the batch block of that row. *)
Definition row_major_flattening {T} (B n_interp n_cp : nat) (dy flat : ndarray T) : Prop :=
  shape dy = [B; n_interp; n_cp] ∧
  shape flat = [B * n_interp * n_cp] ∧
  length (data flat) = B * n_interp * n_cp ∧
  np_reshape flat [B; n_interp; n_cp] = Ret dy ∧
  (∀ b k j, b < B → k < n_interp → j < n_cp →
     ∃ v, np_item dy [b; k; j] = Some v ∧
          data flat !! (b * (n_interp * n_cp) + k * n_cp + j) = Some v) ∧
  (∀ rows cols i r c,
     sparsity_rows B n_interp n_cp = Ret rows →
     sparsity_cols B n_interp n_cp = Ret cols →
     rows !! i = Some r → cols !! i = Some c →
     r / n_interp = c / n_cp ∧
     ∃ v, np_item dy [r / n_interp; r `mod` n_interp; c `mod` n_cp] = Some v ∧
          data flat !! i = Some v).

(** The built-in exception classes of [exn] that do not derive from
    [ValueError]: [TypeError], [AttributeError], [IndexError] and
    [KeyError].  ([OtherError] names a class by a string, which does not
    say what the class derives from.) *)
Definition outside_ValueError (e : exn) : Prop :=
  match e with
  | TypeError _ | AttributeError _ | IndexError _ | KeyError _ => True
  | ValueError _ | OtherError _ _ => False
  end.

(** ** A concrete engine and host, to run the definitions

    Scalars are integers.  The engine keeps the number of control points;
    an evaluation fails with a [ValueError] when a control value is
    negative and otherwise returns zeros; the gradient at a query point is
    that point, once per control point.  The host accepts every call. *)

#[global] Instance Z_float64 : Float64 Z := {| f_zero := 0%Z; f_one := 1%Z |}.

Definition toy_init (g : grid Z) (cp_val : ndarray Z) (method : string)
    (x : list Z) (bounds_error : bool) (opts : unit) : res (InterpND Z nat) :=
  Ret (mk_InterpND false false x None (length (data cp_val))).

Definition toy_evaluate (interp : InterpND Z nat) (values : ndarray Z)
    : res (ndarray Z) * InterpND Z nat :=
  if bool_decide (Forall (λ v, 0 ≤ v)%Z (data values)) then
    (Ret (np_zeros [hd 0 (shape values); length (x_interp interp)]), interp)
  else (Raise (ValueError "control value out of bounds"), interp).

Definition toy_gradients (interp : InterpND Z nat) (pt : list Z) : res (ndarray Z) :=
  Ret (mk_ndarray [core interp] (replicate (core interp) (hd 0%Z pt))).

#[global] Instance toy_engine : Engine Z := {|
  Core := nat;
  Opts := unit;
  InterpND_init := toy_init;
  evaluate_spline := toy_evaluate;
  training_gradients := toy_gradients
|}.

#[global] Instance toy_host : Host Z := {| host_refuses := λ _ _, None |}.

(** A component with one registered spline: [__init__], then
    [add_spline(y_cp_name="ycp", y_interp_name="y", y_cp_val=...)]. *)
Definition one_spline (o : Options Z unit) (y_cp_val : option (cp_val Z))
    : SplineComp Z (@Core Z toy_engine) (@Opts Z toy_engine) :=
  (add_spline "ycp" "y" y_cp_val None (SplineComp_init o "SplineComp (comp)")).2.

(** Scenario B of the specification: batch size 2, three control points
    given by their number, two query points. *)
Definition scenario_B : SplineComp Z (@Core Z toy_engine) (@Opts Z toy_engine) :=
  one_spline (mk_Options 2 "akima" [5; 15]%Z None (Some 3) tt) None.

(** Scenario C: both grid options are set. *)
Definition scenario_C : SplineComp Z (@Core Z toy_engine) (@Opts Z toy_engine) :=
  one_spline (mk_Options 1 "akima" [5; 15]%Z (Some [0; 10; 20]%Z) (Some 3) tt) None.

(** Batch size 2 and a spline whose three default control values come in a
    one-dimensional array. *)
Definition scenario_1d : SplineComp Z (@Core Z toy_engine) (@Opts Z toy_engine) :=
  one_spline (mk_Options 2 "akima" [5; 15]%Z None (Some 3) tt)
    (Some (CpArray (mk_ndarray [3] [1; 2; 4]%Z))).

(** Scenario E: scenario B after [setup], called with a control-point array
    that has a negative entry, on which the toy engine raises. *)
Definition scenario_E_inputs : gmap string (ndarray Z) :=
  {[ "ycp" := mk_ndarray [2; 3] [1; 2; 4; 5; (-6); 7]%Z ]}.

Definition scenario_E : @compute_state Z toy_engine :=
  mk_compute_state (setup scenario_B).2 ∅ [].

(** An engine with two query points and three control points that holds
    the derivative cache [d], and a finalized component of batch size [B]
    around it. *)
Definition toy_interp (d : option (deriv Z)) : InterpND Z (@Core Z toy_engine) :=
  mk_InterpND true false [5; 15]%Z d 3.

Definition finalized (B : nat) (d : option (deriv Z))
    : SplineComp Z (@Core Z toy_engine) (@Opts Z toy_engine) :=
  mk_SplineComp (mk_Options B "akima" [5; 15]%Z None (Some 3) tt) "SplineComp (comp)"
    {[ "y" := "ycp" ]} [("y", toy_interp d)]
    [mk_spline_args "ycp" "y" None None] (Some 3) [].

(** A component without a spline. *)
Definition no_spline : SplineComp Z (@Core Z toy_engine) (@Opts Z toy_engine) :=
  SplineComp_init (mk_Options 2 "akima" [5; 15]%Z None (Some 3) tt) "SplineComp (comp)".

(** A spline whose default control values are a Python list. *)
Definition scenario_list : SplineComp Z (@Core Z toy_engine) (@Opts Z toy_engine) :=
  one_spline (mk_Options 1 "akima" [5; 15]%Z None (Some 3) tt)
    (Some (CpList [1; 2; 4]%Z)).

(** Scenario B after [setup], called with control values the toy engine
    accepts. *)
Definition scenario_B_inputs : gmap string (ndarray Z) :=
  {[ "ycp" := mk_ndarray [2; 3] [1; 2; 4; 5; 6; 7]%Z ]}.

(** An engine that fails with an exception other than a [ValueError]. *)
Definition failing_engine : Engine Z := {|
  Core := nat;
  Opts := unit;
  InterpND_init := toy_init;
  evaluate_spline := λ interp _, (Raise (TypeError "unsupported operand"), interp);
  training_gradients := toy_gradients
|}.

Definition failing_state : @compute_state Z failing_engine :=
  @mk_compute_state Z failing_engine
    (mk_SplineComp (mk_Options 2 "akima" [5; 15]%Z None (Some 3) tt)
       "SplineComp (comp)" {[ "y" := "ycp" ]}
       [("y", mk_InterpND false false [5; 15]%Z None 3)]
       [mk_spline_args "ycp" "y" None None] (Some 3) [])
    ∅ [].

(** A component registered with the declared defaults. *)
Definition scenario_defaults : SplineComp Z (@Core Z toy_engine) (@Opts Z toy_engine) :=
  one_spline (declared_options [5; 15]%Z tt) None.

(** Batch size 0. *)
Definition scenario_zero : SplineComp Z (@Core Z toy_engine) (@Opts Z toy_engine) :=
  one_spline (mk_Options 0 "akima" [5; 15]%Z None (Some 3) tt) None.

(** ** Lemmas on the one-dimensional helpers *)

Section np1d.
Context {A : Type}.
Implicit Types a : list A.

Lemma length_np_repeat a n : length (np_repeat a n) = length a * n.
Proof.
  unfold np_repeat. induction a as [|x a IH]; csimpl; [done|].
  rewrite length_app, length_replicate, IH. lia.
Qed.

Lemma length_np_tile a n : length (np_tile a n) = n * length a.
Proof.
  unfold np_tile. induction n as [|n IH]; csimpl; [done|].
  rewrite length_app, IH. lia.
Qed.

Lemma lookup_np_repeat a n q r :
  r < n → np_repeat a n !! (q * n + r) = a !! q.
Proof.
  unfold np_repeat. revert q. induction a as [|x a IH]; intros q Hr; csimpl.
  { by rewrite !lookup_nil. }
  destruct q as [|q]; simpl.
  - rewrite lookup_app_l by (rewrite length_replicate; lia).
    by apply lookup_replicate_2.
  - rewrite lookup_app_r by (rewrite length_replicate; lia).
    rewrite length_replicate.
    replace (n + q * n + r - n) with (q * n + r) by lia. by apply IH.
Qed.

Lemma lookup_np_tile a n b p :
  b < n → p < length a → np_tile a n !! (b * length a + p) = a !! p.
Proof.
  unfold np_tile. revert b. induction n as [|n IH]; intros b Hb Hp; [lia|].
  csimpl. destruct b as [|b]; simpl.
  - by rewrite lookup_app_l.
  - rewrite lookup_app_r by lia.
    replace (length a + b * length a + p - length a)
      with (b * length a + p) by lia.
    apply IH; lia.
Qed.
End np1d.

Lemma np_add_same_length a b :
  length a = length b → np_add a b = Ret (zip_with Nat.add a b).
Proof. intros H. unfold np_add. by rewrite decide_True. Qed.

Lemma length_sparsity_row n_interp n_cp :
  length (sparsity_row n_interp n_cp) = n_interp * n_cp.
Proof.
  unfold sparsity_row, np_arange. by rewrite length_np_repeat, length_seq.
Qed.

Lemma length_sparsity_col n_interp n_cp :
  length (sparsity_col n_interp n_cp) = n_interp * n_cp.
Proof.
  unfold sparsity_col, np_arange. by rewrite length_np_tile, length_seq.
Qed.

Lemma sparsity_rows_eq vec_size n_interp n_cp :
  sparsity_rows vec_size n_interp n_cp =
  Ret (zip_with Nat.add
         (np_tile (sparsity_row n_interp n_cp) vec_size)
         (np_repeat (np_scale n_interp (np_arange vec_size)) (n_interp * n_cp))).
Proof.
  apply np_add_same_length.
  rewrite length_np_tile, length_np_repeat, length_sparsity_row.
  unfold np_scale, np_arange. by rewrite length_fmap, length_seq.
Qed.

Lemma sparsity_cols_eq vec_size n_interp n_cp :
  sparsity_cols vec_size n_interp n_cp =
  Ret (zip_with Nat.add
         (np_tile (sparsity_col n_interp n_cp) vec_size)
         (np_repeat (np_scale n_cp (np_arange vec_size)) (n_interp * n_cp))).
Proof.
  apply np_add_same_length.
  rewrite length_np_tile, length_np_repeat, length_sparsity_col.
  unfold np_scale, np_arange. by rewrite length_fmap, length_seq.
Qed.

Lemma sparsity_rows_length vec_size n_interp n_cp rows :
  sparsity_rows vec_size n_interp n_cp = Ret rows →
  length rows = vec_size * n_interp * n_cp.
Proof.
  rewrite sparsity_rows_eq. intros [= <-].
  rewrite length_zip_with, length_np_tile, length_np_repeat, length_sparsity_row.
  unfold np_scale, np_arange. rewrite length_fmap, length_seq. lia.
Qed.

Lemma sparsity_cols_length vec_size n_interp n_cp cols :
  sparsity_cols vec_size n_interp n_cp = Ret cols →
  length cols = vec_size * n_interp * n_cp.
Proof.
  rewrite sparsity_cols_eq. intros [= <-].
  rewrite length_zip_with, length_np_tile, length_np_repeat, length_sparsity_col.
  unfold np_scale, np_arange. rewrite length_fmap, length_seq. lia.
Qed.

Lemma length_np_arange n : length (np_arange n) = n.
Proof. apply length_seq. Qed.

Lemma lookup_np_arange n i : i < n → np_arange n !! i = Some i.
Proof. intros. unfold np_arange. by rewrite lookup_seq_lt. Qed.

Lemma lookup_sparsity_row n_interp n_cp k j :
  k < n_interp → j < n_cp → sparsity_row n_interp n_cp !! (k * n_cp + j) = Some k.
Proof.
  intros Hk Hj. unfold sparsity_row.
  rewrite lookup_np_repeat by done. by apply lookup_np_arange.
Qed.

Lemma lookup_sparsity_col n_interp n_cp k j :
  k < n_interp → j < n_cp → sparsity_col n_interp n_cp !! (k * n_cp + j) = Some j.
Proof.
  intros Hk Hj. unfold sparsity_col.
  pose proof (lookup_np_tile (np_arange n_cp) n_interp k j) as H.
  rewrite length_np_arange in H. rewrite H by done. by apply lookup_np_arange.
Qed.

Lemma lookup_batch_offsets c vec_size m b r :
  b < vec_size → r < m →
  np_repeat (np_scale c (np_arange vec_size)) m !! (b * m + r) = Some (c * b).
Proof.
  intros Hb Hr. rewrite lookup_np_repeat by done.
  unfold np_scale. rewrite list_lookup_fmap, lookup_np_arange by done. done.
Qed.

Lemma sparsity_rows_lookup vec_size n_interp n_cp rows b k j :
  sparsity_rows vec_size n_interp n_cp = Ret rows →
  b < vec_size → k < n_interp → j < n_cp →
  rows !! (b * (n_interp * n_cp) + k * n_cp + j) = Some (b * n_interp + k).
Proof.
  rewrite sparsity_rows_eq. intros [= <-] Hb Hk Hj.
  assert (k * n_cp + j < n_interp * n_cp) as Hkj by nia.
  rewrite lookup_zip_with, <-Nat.add_assoc.
  rewrite lookup_batch_offsets by done.
  pose proof (lookup_np_tile (sparsity_row n_interp n_cp) vec_size b
                (k * n_cp + j)) as H.
  rewrite length_sparsity_row in H. rewrite H by done.
  rewrite lookup_sparsity_row by done. simpl. f_equal. lia.
Qed.

Lemma sparsity_cols_lookup vec_size n_interp n_cp cols b k j :
  sparsity_cols vec_size n_interp n_cp = Ret cols →
  b < vec_size → k < n_interp → j < n_cp →
  cols !! (b * (n_interp * n_cp) + k * n_cp + j) = Some (b * n_cp + j).
Proof.
  rewrite sparsity_cols_eq. intros [= <-] Hb Hk Hj.
  assert (k * n_cp + j < n_interp * n_cp) as Hkj by nia.
  rewrite lookup_zip_with, <-Nat.add_assoc.
  rewrite lookup_batch_offsets by done.
  pose proof (lookup_np_tile (sparsity_col n_interp n_cp) vec_size b
                (k * n_cp + j)) as H.
  rewrite length_sparsity_col in H. rewrite H by done.
  rewrite lookup_sparsity_col by done. simpl. f_equal. lia.
Qed.

Lemma sparsity_dense_block B n_interp n_cp :
  ∃ rows cols,
    sparsity_rows B n_interp n_cp = Ret rows ∧
    sparsity_cols B n_interp n_cp = Ret cols ∧
    dense_block_pattern B n_interp n_cp rows cols.
Proof.
  eexists _, _. split; [apply sparsity_rows_eq|]. split; [apply sparsity_cols_eq|].
  split; [|split].
  - apply sparsity_rows_length, sparsity_rows_eq.
  - apply sparsity_cols_length, sparsity_cols_eq.
  - intros b k j Hb Hk Hj. split.
    + eapply sparsity_rows_lookup; [apply sparsity_rows_eq|done..].
    + eapply sparsity_cols_lookup; [apply sparsity_cols_eq|done..].
Qed.

(** Every position of the pattern is the position of one [(b, k, j)]. *)
Lemma pattern_position B n_interp n_cp i :
  i < B * n_interp * n_cp →
  ∃ b k j, b < B ∧ k < n_interp ∧ j < n_cp ∧
           i = b * (n_interp * n_cp) + k * n_cp + j.
Proof.
  intros Hi.
  assert (0 < n_cp) by (destruct n_cp; lia).
  assert (0 < n_interp) by (destruct n_interp; lia).
  exists (i / (n_interp * n_cp)), ((i `mod` (n_interp * n_cp)) / n_cp),
         ((i `mod` (n_interp * n_cp)) `mod` n_cp).
  assert (n_interp * n_cp ≠ 0) by lia.
  pose proof (Nat.div_mod i (n_interp * n_cp)) as E1.
  pose proof (Nat.mod_upper_bound i (n_interp * n_cp)) as U1.
  pose proof (Nat.div_mod (i `mod` (n_interp * n_cp)) n_cp) as E2.
  pose proof (Nat.mod_upper_bound (i `mod` (n_interp * n_cp)) n_cp) as U2.
  split_and!.
  - apply Nat.Div0.div_lt_upper_bound. lia.
  - apply Nat.Div0.div_lt_upper_bound. lia.
  - lia.
  - lia.
Qed.

(** ** Finalization: what [setup] does to the object and to the host *)

Section setup_facts.
Context {T : Type} `{!Float64 T} `{!Engine T} `{!Host T}.
Local Abbreviation Comp := (SplineComp T Core Opts).

Lemma call_host_inv (call : host_call T) (c c' : Comp) r :
  call_host call c = (r, c') →
  (r = Ret tt ∧ c' = set_host_calls (λ l, l ++ [call]) c) ∨
  (∃ e, r = Raise e ∧ c' = c).
Proof.
  unfold call_host. destruct (host_refuses _ _); intros [= <- <-]; eauto.
Qed.

(** The object after one iteration of the loop of [setup]: the calls it
    made are an initial part of [spline_calls], all of them when the
    iteration completes; the options and the cache are untouched. *)
Lemma setup_spline_inv g n_cp opts B n_interp sp (c c' : Comp) r :
  setup_spline g n_cp opts B n_interp sp c = (r, c') →
  ∃ new,
    host_calls c' = host_calls c ++ new ∧
    new `prefix_of` spline_calls B n_interp n_cp sp ∧
    options c' = options c ∧ msginfo c' = msginfo c ∧
    _spline_cache c' = _spline_cache c ∧ _n_cp c' = _n_cp c ∧
    (r = Ret tt →
     new = spline_calls B n_interp n_cp sp ∧
     is_Ret (default_y_cp_val B n_cp (y_cp_val sp)) ∧
     interp_to_cp c' = <[y_interp_name sp := y_cp_name sp]> (interp_to_cp c)).
Proof.
  destruct (sparsity_dense_block B n_interp n_cp) as (rows & cols & Hr & Hc & _).
  unfold setup_spline, spline_calls, m_bind, m_get, m_lift, m_modify.
  rewrite Hr, Hc.
  destruct (call_host (add_output _ _ _) c) as [r1 c1] eqn:E1.
  apply call_host_inv in E1 as [[-> ->]|(e & -> & ->)].
  2:{ intros [= <- <-]. exists []. rewrite app_nil_r.
      split_and!; try done. apply prefix_nil. }
  destruct (default_y_cp_val _ _ _) as [v|e].
  2:{ intros [= <- <-]. eexists [_]. split_and!; done. }
  destruct (call_host (add_input _ _) _) as [r2 c2] eqn:E2.
  apply call_host_inv in E2 as [[-> ->]|(e & -> & ->)].
  2:{ intros [= <- <-]. eexists [_]. split_and!; try done.
      by apply prefix_cons, prefix_nil. }
  destruct (call_host (declare_partials _ _ _ _) _) as [r3 c3] eqn:E3.
  apply call_host_inv in E3 as [[-> ->]|(e & -> & ->)].
  2:{ intros [= <- <-]. eexists [_; _]. simpl. rewrite <-app_assoc.
      split_and!; try done. by apply prefix_cons, prefix_cons, prefix_nil. }
  destruct (np_first_row v) as [cpv|e].
  2:{ intros [= <- <-]. eexists [_; _; _]. simpl. rewrite <-!app_assoc.
      split_and!; done. }
  destruct (InterpND_init _ _ _ _ _ _) as [it|e].
  2:{ intros [= <- <-]. eexists [_; _; _]. simpl. rewrite <-!app_assoc.
      split_and!; done. }
  intros [= <- <-]. eexists [_; _; _]. simpl. rewrite <-!app_assoc.
  split_and!; try done. intros _. split_and!; try done. by eexists.
Qed.

(** The loop of [setup]. *)
Lemma setup_loop_inv g n_cp opts B n_interp l (c c' : Comp) r :
  m_for l (setup_spline g n_cp opts B n_interp) c = (r, c') →
  ∃ new,
    host_calls c' = host_calls c ++ new ∧
    new `prefix_of` (l ≫= spline_calls B n_interp n_cp) ∧
    options c' = options c ∧ msginfo c' = msginfo c ∧
    _spline_cache c' = _spline_cache c ∧ _n_cp c' = _n_cp c ∧
    (r = Ret tt →
     new = l ≫= spline_calls B n_interp n_cp ∧
     (∀ sp, sp ∈ l → is_Ret (default_y_cp_val B n_cp (y_cp_val sp)))).
Proof.
  revert c. induction l as [|sp l IH]; intros c; cbn [m_for].
  { intros [= <- <-]. exists []. rewrite app_nil_r. split_and!; try done.
    intros _. split; [done|]. by intros sp ?%elem_of_nil. }
  unfold m_bind at 1.
  destruct (setup_spline _ _ _ _ _ sp c) as [r1 c1] eqn:E1.
  apply setup_spline_inv in E1
    as (new1 & Hc1 & Hp1 & Ho1 & Hm1 & Hs1 & Hn1 & Hok1).
  destruct r1 as [[]|e].
  - destruct (Hok1 eq_refl) as (-> & Hd & _).
    intros (new2 & Hc2 & Hp2 & Ho2 & Hm2 & Hs2 & Hn2 & Hok2)%IH.
    exists (spline_calls B n_interp n_cp sp ++ new2).
    rewrite Hc2, Hc1, <-app_assoc. split_and!; try congruence.
    + rewrite bind_cons. by apply prefix_app.
    + intros ->. destruct (Hok2 eq_refl) as (-> & Hall). split; [done|].
      intros sp' [->|?]%elem_of_cons; auto.
  - intros [= <- <-]. exists new1. split_and!; try done.
    rewrite bind_cons. by apply prefix_app_r.
Qed.

(** [setup]: the object afterwards. *)
Lemma setup_inv (c c' : Comp) r :
  setup c = (r, c') →
  match resolve_grid (msginfo c) (options c) with
  | Raise e => r = Raise e ∧ c' = c
  | Ret (g, n_cp) =>
      let B := vec_size (options c) in
      let n_interp := length (x_interp_val (options c)) in
      _n_cp c' = Some n_cp ∧ options c' = options c ∧
      ∃ new,
        host_calls c' = host_calls c ++ new ∧
        new `prefix_of`
          ((_spline_cache c ≫= spline_calls B n_interp n_cp) ++
           if String.prefix "scipy" (method (options c))
           then [set_check_partial_options "*" "fd"] else []) ∧
        (r = Ret tt →
         new =
           (_spline_cache c ≫= spline_calls B n_interp n_cp) ++
           (if String.prefix "scipy" (method (options c))
            then [set_check_partial_options "*" "fd"] else []) ∧
         ∀ sp, sp ∈ _spline_cache c →
               is_Ret (default_y_cp_val B n_cp (y_cp_val sp)))
  end.
Proof.
  unfold setup, m_bind at 1, m_get. unfold m_bind at 1, m_lift.
  destruct (resolve_grid _ _) as [[g n_cp]|e]; [|by intros [= <- <-]].
  unfold m_bind at 1, m_modify. simpl. unfold m_bind at 1.
  destruct (m_for _ _ _) as [r1 c1] eqn:E1.
  apply setup_loop_inv in E1
    as (new1 & Hc1 & Hp1 & Ho1 & Hm1 & Hs1 & Hn1 & Hok1).
  simpl in *.
  destruct r1 as [[]|e].
  - destruct (Hok1 eq_refl) as [-> Hall].
    destruct (String.prefix "scipy" (method (options c))).
    + intros [[-> ->]|(e & -> & ->)]%call_host_inv.
      * split_and!; try done. eexists. simpl. rewrite Hc1, <-app_assoc.
        split_and!; done.
      * split_and!; try done. eexists. split_and!; try done.
        by apply prefix_app_r.
    + intros [= <- <-]. split_and!; try done. eexists.
      split_and!; [done|by rewrite app_nil_r|]. intros _. by rewrite app_nil_r.
  - intros [= <- <-]. split_and!; try done. exists new1.
    split_and!; try done. by apply prefix_app_r.
Qed.

Lemma spline_calls_declare B n_interp n_cp sp o w rows cols :
  declare_partials o w rows cols ∈ spline_calls B n_interp n_cp sp →
  o = y_interp_name sp ∧ w = y_cp_name sp ∧
  dense_block_pattern B n_interp n_cp rows cols.
Proof.
  destruct (sparsity_dense_block B n_interp n_cp) as (rows' & cols' & Hr & Hc & Hp).
  unfold spline_calls. rewrite Hr, Hc.
  destruct (default_y_cp_val _ _ _); rewrite !elem_of_cons;
    intros Hin; destruct_or?; simplify_eq; try done.
  all: by apply elem_of_nil in Hin.
Qed.

Lemma spline_calls_complete B n_interp n_cp sp v :
  default_y_cp_val B n_cp (y_cp_val sp) = Ret v →
  ∃ rows cols,
    spline_calls B n_interp n_cp sp =
      [add_output (y_interp_name sp) (np_ones [B; n_interp]) (y_units sp);
       add_input (y_cp_name sp) v;
       declare_partials (y_interp_name sp) (y_cp_name sp) rows cols] ∧
    dense_block_pattern B n_interp n_cp rows cols.
Proof.
  intros Hv.
  destruct (sparsity_dense_block B n_interp n_cp) as (rows & cols & Hr & Hc & Hp).
  exists rows, cols. unfold spline_calls. by rewrite Hv, Hr, Hc.
Qed.

Lemma spline_calls_no_check B n_interp n_cp sp w m :
  set_check_partial_options w m ∉ spline_calls B n_interp n_cp sp.
Proof.
  destruct (sparsity_dense_block B n_interp n_cp) as (rows' & cols' & Hr & Hc & Hp).
  unfold spline_calls. rewrite Hr, Hc.
  destruct (default_y_cp_val _ _ _); rewrite !elem_of_cons;
    intros Hin; destruct_or?; simplify_eq.
  all: by apply elem_of_nil in Hin.
Qed.

(** C1.  Whatever [setup] declares to the host as partials of a spline is
    the dense block pattern: [rows] and [cols] of length
    [B * n_interp * n_cp], with row [b * n_interp + k] and column
    [b * n_cp + j] at position [b * (n_interp * n_cp) + k * n_cp + j];
    and when [setup] completes, every registered spline has such a
    declaration. *)
Theorem setup_declares_dense_blocks (c c' : Comp) r :
  setup c = (r, c') →
  let B := vec_size (options c) in
  let n_interp := length (x_interp_val (options c)) in
  ∃ new,
    host_calls c' = host_calls c ++ new ∧
    (∀ o w rows cols,
       declare_partials o w rows cols ∈ new →
       ∃ sp n_cp,
         sp ∈ _spline_cache c ∧ _n_cp c' = Some n_cp ∧
         o = y_interp_name sp ∧ w = y_cp_name sp ∧
         dense_block_pattern B n_interp n_cp rows cols) ∧
    (r = Ret tt →
     ∃ n_cp,
       _n_cp c' = Some n_cp ∧
       ∀ sp, sp ∈ _spline_cache c →
         ∃ rows cols,
           declare_partials (y_interp_name sp) (y_cp_name sp) rows cols ∈ new ∧
           dense_block_pattern B n_interp n_cp rows cols).
Proof.
  intros Hs B n_interp. apply setup_inv in Hs. cbv zeta in Hs.
  fold B n_interp in Hs.
  destruct (resolve_grid _ _) as [[g n_cp]|e].
  2:{ destruct Hs as [-> ->]. exists []. rewrite app_nil_r.
      split_and!; [done| |done]. by intros ???? ?%elem_of_nil. }
  destruct Hs as (Hn & Ho & new & Hc & Hp & Hok). exists new.
  split_and!; [done| |].
  - intros o w rows cols Hin.
    assert (declare_partials o w rows cols ∈
              _spline_cache c ≫= spline_calls B n_interp n_cp) as Hin'.
    { destruct Hp as [k Hk].
      assert (declare_partials o w rows cols ∈ new ++ k) as Hin2
        by (apply elem_of_app; by left).
      rewrite <-Hk in Hin2. apply elem_of_app in Hin2 as [?|Hin2]; [done|].
      destruct (String.prefix _ _);
        [by apply list_elem_of_singleton in Hin2|by apply elem_of_nil in Hin2]. }
    apply list_elem_of_bind in Hin' as (sp & Hin' & Hsp).
    apply spline_calls_declare in Hin' as (-> & -> & Hpat).
    by exists sp, n_cp.
  - intros ->. destruct (Hok eq_refl) as [-> Hall]. exists n_cp. split; [done|].
    intros sp Hsp. destruct (Hall sp Hsp) as [v Hv].
    destruct (spline_calls_complete B n_interp n_cp sp v Hv)
      as (rows & cols & Hcalls & Hpat).
    exists rows, cols. split; [|done].
    apply elem_of_app; left. apply list_elem_of_bind. exists sp. split; [|done].
    rewrite Hcalls, !elem_of_cons. auto.
Qed.

(** C10.  No accepted method name starts with "scipy", so [setup] never
    calls [set_check_partial_options], whether it completes or raises. *)
Theorem setup_never_sets_check_partial_options (c c' : Comp) r :
  method_accepted (options c) →
  setup c = (r, c') →
  String.prefix "scipy" (method (options c)) = false ∧
  ∃ new,
    host_calls c' = host_calls c ++ new ∧
    ∀ w m, set_check_partial_options w m ∉ new.
Proof.
  intros Hm Hs.
  assert (String.prefix "scipy" (method (options c)) = false) as Hpre.
  { unfold method_accepted, ALL_METHODS in Hm. rewrite !elem_of_cons in Hm.
    destruct Hm as [->|[->|[->|[->|[->|[->|Hm]]]]]]; try reflexivity.
    by apply elem_of_nil in Hm. }
  split; [done|]. apply setup_inv in Hs.
  destruct (resolve_grid _ _) as [[g n_cp]|e].
  2:{ destruct Hs as [-> ->]. exists []. rewrite app_nil_r. split; [done|].
      by intros ?? ?%elem_of_nil. }
  destruct Hs as (Hn & Ho & new & Hc & Hp & Hok). exists new. split; [done|].
  intros w m Hin. rewrite Hpre, app_nil_r in Hp. destruct Hp as [k Hk].
  assert (set_check_partial_options w m ∈ new ++ k) as Hin2
    by (apply elem_of_app; by left).
  rewrite <-Hk in Hin2. apply list_elem_of_bind in Hin2 as (sp & Hin2 & _).
  by apply spline_calls_no_check in Hin2.
Qed.
End setup_facts.

Lemma setup_declares_dense_blocks_witness :
  ∃ new, host_calls (setup scenario_B).2 = host_calls scenario_B ++ new ∧
         ∃ rows cols, declare_partials "y" "ycp" rows cols ∈ new ∧
                      dense_block_pattern 2 2 3 rows cols.
Proof.
  destruct (setup_declares_dense_blocks scenario_B (setup scenario_B).2
              (setup scenario_B).1) as (new & Hc & _ & Hok).
  { vm_compute. reflexivity. }
  exists new. split; [exact Hc|].
  destruct (Hok eq_refl) as (n_cp & Hn & Hall).
  assert (n_cp = 3) as -> by (vm_compute in Hn; congruence).
  apply (Hall (mk_spline_args "ycp" "y" None None)).
  vm_compute. left.
Defined.

Lemma setup_never_sets_check_partial_options_witness :
  String.prefix "scipy" (method (options scenario_B)) = false.
Proof.
  apply (setup_never_sets_check_partial_options scenario_B (setup scenario_B).2
           (setup scenario_B).1).
  - unfold method_accepted, ALL_METHODS. simpl. set_solver.
  - vm_compute. reflexivity.
Defined.

(** ** Strings *)

Lemma append_cons x (a b : string) : String x a +:+ b = String x (a +:+ b).
Proof. reflexivity. Qed.

Lemma append_nil_r (a : string) : a +:+ "" = a.
Proof. induction a as [|x a IH]; [done|]. rewrite append_cons. by f_equal. Qed.

Lemma append_assoc (a b c : string) : (a +:+ b) +:+ c = a +:+ b +:+ c.
Proof. induction a as [|x a IH]; [done|]. rewrite !append_cons. by f_equal. Qed.

Lemma occurs_in_append_r needle a b : occurs_in needle b → occurs_in needle (a +:+ b).
Proof.
  intros (pre & post & ->). exists (a +:+ pre), post. by rewrite append_assoc.
Qed.

Lemma occurs_in_append_l needle a b : occurs_in needle a → occurs_in needle (a +:+ b).
Proof.
  intros (pre & post & ->). exists pre, (post +:+ b). by rewrite !append_assoc.
Qed.

Lemma occurs_in_here needle post : occurs_in needle (needle +:+ post).
Proof. by exists "", post. Qed.

Lemma occurs_in_refl needle : occurs_in needle needle.
Proof.
  exists "", "". by rewrite append_nil_r.
Qed.

(** ** The grid resolver *)

Lemma div_block b n k : k < n → (b * n + k) / n = b.
Proof.
  intros Hk. symmetry. apply (Nat.div_unique _ _ _ k); lia.
Qed.

Lemma mod_block b n k : k < n → (b * n + k) `mod` n = k.
Proof.
  intros Hk. symmetry. apply (Nat.mod_unique _ _ b k); lia.
Qed.

(** C3.  In the pattern built by [setup] an entry with its row in batch
    block [b] has its column in batch block [b] too; entries of different
    batch blocks share neither a row nor a column block. *)
Theorem sparsity_block_diagonal B n_interp n_cp rows cols :
  sparsity_rows B n_interp n_cp = Ret rows →
  sparsity_cols B n_interp n_cp = Ret cols →
  (∀ i r c, rows !! i = Some r → cols !! i = Some c →
     r / n_interp = c / n_cp ∧ r / n_interp = i / (n_interp * n_cp) ∧
     r / n_interp < B) ∧
  (∀ i i' r r' c c',
     rows !! i = Some r → cols !! i = Some c →
     rows !! i' = Some r' → cols !! i' = Some c' →
     r / n_interp ≠ r' / n_interp →
     c / n_cp ≠ c' / n_cp ∧ r / n_interp ≠ c' / n_cp ∧ r ≠ r' ∧ c ≠ c').
Proof.
  intros Hr Hc.
  assert (∀ i r c, rows !! i = Some r → cols !! i = Some c →
     r / n_interp = c / n_cp ∧ r / n_interp = i / (n_interp * n_cp) ∧
     r / n_interp < B) as Hdiag.
  { intros i r c Hri Hci.
    pose proof (lookup_lt_Some _ _ _ Hri) as Hi.
    rewrite (sparsity_rows_length _ _ _ _ Hr) in Hi.
    destruct (pattern_position _ _ _ _ Hi) as (b & k & j & Hb & Hk & Hj & ->).
    rewrite (sparsity_rows_lookup _ _ _ _ _ _ _ Hr Hb Hk Hj) in Hri.
    rewrite (sparsity_cols_lookup _ _ _ _ _ _ _ Hc Hb Hk Hj) in Hci.
    simplify_eq. rewrite !div_block by done.
    rewrite <-Nat.add_assoc, div_block by nia. done. }
  split; [done|].
  intros i i' r r' c c' Hri Hci Hri' Hci' Hne.
  destruct (Hdiag i r c Hri Hci) as (E1 & _ & _).
  destruct (Hdiag i' r' c' Hri' Hci') as (E2 & _ & _).
  split_and!; [congruence|congruence| |]; intros ->; congruence.
Qed.

Lemma sparsity_block_diagonal_witness :
  3 / 2 = 5 / 3 ∧ 3 / 2 = 11 / (2 * 3) ∧ 3 / 2 < 2.
Proof.
  destruct (sparsity_block_diagonal 2 2 3
              [0; 0; 0; 1; 1; 1; 2; 2; 2; 3; 3; 3]
              [0; 1; 2; 0; 1; 2; 3; 4; 5; 3; 4; 5]) as [Hdiag _].
  - vm_compute. reflexivity.
  - vm_compute. reflexivity.
  - apply (Hdiag 11 3 5); reflexivity.
Defined.

Section grid_facts.
Context {T : Type} `{!Float64 T} `{!Engine T} `{!Host T}.
Local Abbreviation Comp := (SplineComp T Core Opts).

Lemma resolve_grid_cases info (o : Options T Opts) :
  (grid_options_valid o ∧ is_Ret (resolve_grid info o)) ∨
  (¬ grid_options_valid o ∧
   ∃ tail, resolve_grid info o = Raise (ValueError (info +:+ tail)) ∧
           occurs_in "'x_cp_val'" tail ∧ occurs_in "'num_cp'" tail).
Proof.
  unfold resolve_grid, grid_options_valid.
  destruct (x_cp_val o) as [xs|] eqn:Ex.
  - case_bool_decide as Hm.
    + right. split.
      { intros [_ Hnot]. apply Hnot. split; [done|by eexists]. }
      eexists. split; [done|]. split.
      * by exists ": ", " is not a valid option when using method 'bsplines'. Set 'num_cp' instead.".
      * by exists ": 'x_cp_val' is not a valid option when using method 'bsplines'. Set ", " instead.".
    + destruct (num_cp o) as [n|] eqn:En.
      * right. split.
        { intros [[[_ ?]|[? _]] _]; done. }
        eexists. split; [done|]. split.
        -- by exists ": It is not valid to set both options ", " and 'num_cp'.".
        -- by exists ": It is not valid to set both options 'x_cp_val' and ", ".".
      * left. split; [|by eexists].
        split; [left; split; [by eexists|done]|]. by intros [? _].
  - destruct (num_cp o) as [n|] eqn:En.
    + left. split; [|by eexists].
      split; [right; split; [done|by eexists]|]. by intros [_ [? ?]].
    + right. split.
      { intros [[[[? ?] _]|[_ [? ?]]] _]; done. }
      eexists. split; [done|]. split.
      * by exists ": Either option ", " or 'num_cp' must be set.".
      * by exists ": Either option 'x_cp_val' or ", " must be set.".
Qed.

(** C2.  [setup] gets past the resolution of the grid exactly in the
    valid configurations of [x_cp_val], [num_cp] and the method; in every
    other configuration it raises a [ValueError], before anything else
    happens to the object, whose message names both options. *)
Theorem setup_grid_configuration (c : Comp) :
  (is_Ret (resolve_grid (msginfo c) (options c)) ↔ grid_options_valid (options c)) ∧
  (¬ grid_options_valid (options c) →
   ∃ msg,
     resolve_grid (msginfo c) (options c) = Raise (ValueError msg) ∧
     setup c = (Raise (ValueError msg), c) ∧
     occurs_in "'x_cp_val'" msg ∧ occurs_in "'num_cp'" msg).
Proof.
  destruct (resolve_grid_cases (msginfo c) (options c))
    as [[Hv Hr]|[Hv (tail & Hr & Hx & Hn)]].
  - split; [done|]. by intros [].
  - split.
    + split; [|done]. intros [? ?]. congruence.
    + intros _. eexists. split; [done|]. split_and!.
      * unfold setup, m_bind, m_get, m_lift. by rewrite Hr.
      * by apply occurs_in_append_r.
      * by apply occurs_in_append_r.
Qed.

(** C7.  The resolved grid is a function of the options alone: the
    explicit positions and their number, or else [0, 1, ..., count-1]
    and the count; [setup] stores that number in [_n_cp]. *)
Theorem resolved_grid_from_options (c : Comp) :
  let o := options c in
  (∀ xs, x_cp_val o = Some xs → num_cp o = None → method o ≠ "bsplines" →
     resolve_grid (msginfo c) o = Ret (GridValues xs, length xs)) ∧
  (∀ n, x_cp_val o = None → num_cp o = Some n →
     resolve_grid (msginfo c) o = Ret (GridRange (seq 0 n), n)) ∧
  (∀ info g n, resolve_grid (msginfo c) o = Ret (g, n) →
     resolve_grid info o = Ret (g, n)) ∧
  (∀ g n r c', resolve_grid (msginfo c) o = Ret (g, n) →
     setup c = (r, c') → _n_cp c' = Some n).
Proof.
  intros o. subst o. split_and!.
  - intros xs Hx Hn Hm. unfold resolve_grid. rewrite Hx, Hn.
    by rewrite bool_decide_false.
  - intros n Hx Hn. unfold resolve_grid. by rewrite Hx, Hn.
  - intros info g n. unfold resolve_grid.
    destruct (x_cp_val (options c)); [case_bool_decide|];
      destruct (num_cp (options c)); done.
  - intros g n r c' Hg Hs. apply setup_inv in Hs. rewrite Hg in Hs.
    by destruct Hs as [? _].
Qed.
End grid_facts.

Lemma resolved_grid_from_options_witness :
  resolve_grid (msginfo scenario_B) (options scenario_B) =
    Ret (GridRange [0; 1; 2], 3) ∧
  _n_cp (setup scenario_B).2 = Some 3.
Proof.
  destruct (resolved_grid_from_options scenario_B) as (_ & Hcount & _ & Hn).
  split.
  - apply (Hcount 3); reflexivity.
  - apply (Hn (GridRange [0; 1; 2]) 3 (setup scenario_B).1).
    + vm_compute. reflexivity.
    + vm_compute. reflexivity.
Defined.

Lemma setup_grid_configuration_witness :
  ∃ msg, setup scenario_C = (Raise (ValueError msg), scenario_C) ∧
         occurs_in "'x_cp_val'" msg ∧ occurs_in "'num_cp'" msg.
Proof.
  destruct (setup_grid_configuration scenario_C) as [_ Hbad].
  destruct Hbad as (msg & _ & Hs & Hx & Hn).
  - unfold grid_options_valid. simpl. intros [[[_ ?]|[? _]] _]; discriminate.
  - exists msg. split_and!; assumption.
Defined.

(** ** Default control values *)

Lemma size_of_2 a b : size_of [a; b] = a * b.
Proof. unfold size_of. simpl. lia. Qed.

Lemma size_of_3 a b c : size_of [a; b; c] = a * b * c.
Proof. unfold size_of. simpl. lia. Qed.

(** C8, as stated, fails: with batch size 2 a one-dimensional array of the
    three default control values is not accepted; [setup] raises the
    [ValueError] of [reshape]. *)
Lemma default_1d_rejected_for_batch_2 :
  default_y_cp_val 2 3 (Some (CpArray (mk_ndarray [3] [1; 2; 4]%Z))) =
    Raise (ValueError "cannot reshape array into the requested shape") ∧
  (setup scenario_1d).1 =
    Raise (ValueError "cannot reshape array into the requested shape").
Proof. split; vm_compute; reflexivity. Qed.

Section default_facts.
Context {T : Type} `{!Float64 T} `{!Engine T} `{!Host T}.
Local Abbreviation Comp := (SplineComp T Core Opts).

(** C8, amended.  Without default control values the input is registered
    as the all-ones array of shape [(B, n_cp)].  An array of fewer than
    two dimensions is accepted exactly when it holds [B * n_cp] elements,
    and is then reshaped to [(B, n_cp)]; otherwise [reshape] raises a
    [ValueError].  So a one-dimensional array of shape [(n_cp,)], with
    [n_cp] positive, is accepted exactly when [B = 1].  When [setup]
    completes, each spline's input is registered with that value. *)
Theorem default_control_values (B n_cp : nat) :
  default_y_cp_val B n_cp None =
    Ret (mk_ndarray [B; n_cp] (replicate (B * n_cp) (f_one : T))) ∧
  (∀ a : ndarray T, ndim a < 2 →
     (B * n_cp = length (data a) →
      default_y_cp_val B n_cp (Some (CpArray a)) =
        Ret (mk_ndarray [B; n_cp] (data a))) ∧
     (B * n_cp ≠ length (data a) →
      ∃ msg, default_y_cp_val B n_cp (Some (CpArray a)) = Raise (ValueError msg))) ∧
  (∀ a : ndarray T, shape a = [n_cp] → wf_ndarray a → 0 < n_cp →
     is_Ret (default_y_cp_val B n_cp (Some (CpArray a))) ↔ B = 1) ∧
  (∀ (c c' : Comp) sp,
     setup c = (Ret tt, c') → sp ∈ _spline_cache c →
     vec_size (options c) = B → _n_cp c' = Some n_cp →
     ∃ v, default_y_cp_val B n_cp (y_cp_val sp) = Ret v ∧
          add_input (y_cp_name sp) v ∈ host_calls c').
Proof.
  split_and!.
  - unfold default_y_cp_val, np_ones, np_full. by rewrite size_of_2.
  - intros a Hd. unfold default_y_cp_val, np_reshape. rewrite decide_True by done.
    rewrite size_of_2. split; intros Hsz.
    + by rewrite decide_True.
    + rewrite decide_False by done. by eexists.
  - intros a Hs Hwf Hn. unfold wf_ndarray in Hwf. rewrite Hs in Hwf.
    unfold size_of in Hwf. simpl in Hwf.
    unfold default_y_cp_val, np_reshape, ndim. rewrite Hs.
    destruct (decide (length [n_cp] < 2)) as [_|Hge]; [|simpl in Hge; lia].
    rewrite size_of_2. split.
    + intros [v Hv]. case_decide; [nia|done].
    + intros ->. rewrite decide_True by lia. by eexists.
  - intros c c' sp Hs Hsp HB Hncp. apply setup_inv in Hs.
    destruct (resolve_grid _ _) as [[g n]|e]; [|by destruct Hs].
    destruct Hs as (Hn & Ho & new & Hc & Hp & Hok).
    destruct (Hok eq_refl) as [-> Hall]. rewrite Hn in Hncp. simplify_eq.
    destruct (Hall sp Hsp) as [v Hv]. exists v. split; [done|].
    destruct (spline_calls_complete (vec_size (options c))
                (length (x_interp_val (options c))) n_cp sp v Hv)
      as (rows & cols & Hcalls & _).
    rewrite Hc. apply elem_of_app; right. apply elem_of_app; left.
    apply list_elem_of_bind. exists sp. split; [|done].
    rewrite Hcalls, !elem_of_cons. auto.
Qed.
End default_facts.

Lemma default_control_values_witness :
  is_Ret (default_y_cp_val 1 3 (Some (CpArray (mk_ndarray [3] [1; 2; 4]%Z)))) ∧
  ∃ v, default_y_cp_val 2 3 None = Ret v ∧
       add_input "ycp" v ∈ host_calls (setup scenario_B).2.
Proof.
  destruct (default_control_values (T := Z) 1 3) as (_ & _ & H1d & _).
  destruct (default_control_values (T := Z) 2 3) as (_ & _ & _ & Hreg).
  split.
  - apply (H1d (mk_ndarray [3] [1; 2; 4]%Z)); [reflexivity|reflexivity|lia|reflexivity].
  - apply (Hreg scenario_B (setup scenario_B).2 (mk_spline_args "ycp" "y" None None)).
    + vm_compute. reflexivity.
    + vm_compute. left.
    + reflexivity.
    + vm_compute. reflexivity.
Defined.

(** ** Evaluation *)

Lemma m_for_app {S A} (l1 l2 : list A) (body : A → M S unit) (s : S) :
  m_for (l1 ++ l2) body s =
  match m_for l1 body s with
  | (Ret _, s1) => m_for l2 body s1
  | (Raise e, s1) => (Raise e, s1)
  end.
Proof.
  revert s. induction l1 as [|x l1 IH]; intros s; [done|].
  simpl. unfold m_bind. destruct (body x s) as [[[]|e] s1]; [apply IH|done].
Qed.

Section compute_facts.
Context {T : Type} `{!Float64 T} `{!Engine T} `{!Host T}.

(** One iteration of the loop of [compute] leaves the options, the
    message prefix and the names untouched, and evaluates at most the
    engine of its own output. *)
Lemma compute_spline_inv inputs item (st st' : compute_state) r :
  compute_spline inputs item st = (r, st') →
  options (self st') = options (self st) ∧
  msginfo (self st') = msginfo (self st) ∧
  interp_to_cp (self st') = interp_to_cp (self st) ∧
  (r = Ret tt → evaluated st' = evaluated st ++ [item.1]).
Proof.
  unfold compute_spline, m_bind, m_get, m_lift, m_modify, m_raise.
  destruct (dict_get _ _ _) as [cp_name|e]; [|by intros [= <- <-]].
  destruct (dict_get _ _ _) as [values|e]; [|by intros [= <- <-]].
  simpl. destruct (evaluate_spline _ _) as [[v|e] interp2]; simpl.
  - by intros [= <- <-].
  - by destruct e; intros [= <- <-].
Qed.

Lemma compute_loop_inv inputs l (st st' : compute_state) r :
  m_for l (compute_spline inputs) st = (r, st') →
  options (self st') = options (self st) ∧
  msginfo (self st') = msginfo (self st) ∧
  interp_to_cp (self st') = interp_to_cp (self st) ∧
  (r = Ret tt → evaluated st' = evaluated st ++ l.*1).
Proof.
  revert st. induction l as [|item l IH]; intros st; cbn [m_for].
  { intros [= <- <-]. by rewrite app_nil_r. }
  unfold m_bind at 1.
  destruct (compute_spline inputs item st) as [r1 st1] eqn:E1.
  apply compute_spline_inv in E1 as (Ho1 & Hm1 & Hi1 & He1).
  destruct r1 as [[]|e].
  - intros (Ho2 & Hm2 & Hi2 & He2)%IH. split_and!; try congruence.
    intros ->. rewrite He2, He1 by done. by rewrite <-app_assoc.
  - intros [= <- <-]. done.
Qed.

(** C6.  When the engine of an output raises a [ValueError] during
    [compute], after the outputs before it were computed, [compute]
    raises a [ValueError] whose message contains the name of the output
    and the message of the engine.  The engine was evaluated once for
    that output and not at all for the later ones, and the output vector
    is as the earlier outputs left it. *)
Theorem compute_reraises_ValueError inputs (st st1 : compute_state)
    pre out_name interp post cp_name values err :
  interps (self st) = pre ++ (out_name, interp) :: post →
  m_for pre (compute_spline inputs) st = (Ret tt, st1) →
  interp_to_cp (self st) !! out_name = Some cp_name →
  inputs !! cp_name = Some values →
  (evaluate_spline
     (mk_InterpND true false (x_interp_val (options (self st)))
        (_d_dvalues interp) (core interp)) values).1 = Raise (ValueError err) →
  let msg := error_interpolating (msginfo (self st)) out_name err in
  ∃ st2,
    compute inputs st = (Raise (ValueError msg), st2) ∧
    occurs_in out_name msg ∧ occurs_in err msg ∧
    outputs st2 = outputs st1 ∧
    evaluated st2 = evaluated st ++ pre.*1 ++ [out_name].
Proof.
  intros Hl Hpre Hcp Hin Hev msg.
  destruct (compute_loop_inv _ _ _ _ _ Hpre) as (Ho & Hm & Hi & He).
  specialize (He eq_refl).
  unfold compute, m_bind at 1, m_get. rewrite Hl, m_for_app, Hpre.
  cbn [m_for]. unfold m_bind at 1.
  unfold compute_spline, m_bind, m_get, m_lift, m_modify, m_raise, dict_get.
  simpl. rewrite Hi, Hcp, Hin, Ho. simpl.
  destruct (evaluate_spline _ _) as [r interp2]. simpl in Hev. subst r. simpl.
  eexists. split_and!.
  - rewrite Hm. reflexivity.
  - unfold msg, error_interpolating.
    apply occurs_in_append_r, occurs_in_append_r, occurs_in_here.
  - unfold msg, error_interpolating.
    do 5 apply occurs_in_append_r. apply occurs_in_refl.
  - done.
  - simpl. by rewrite He, <-app_assoc.
Qed.
End compute_facts.

Lemma compute_reraises_ValueError_witness :
  ∃ st2,
    compute scenario_E_inputs scenario_E =
      (Raise (ValueError
                (error_interpolating "SplineComp (comp)" "y"
                   "control value out of bounds")), st2) ∧
    outputs st2 = ∅ ∧ evaluated st2 = ["y"].
Proof.
  destruct (compute_reraises_ValueError scenario_E_inputs scenario_E scenario_E
              [] "y" (mk_InterpND false false [5; 15]%Z None 3) [] "ycp"
              (mk_ndarray [2; 3] [1; 2; 4; 5; (-6); 7]%Z)
              "control value out of bounds")
    as (st2 & Hc & _ & _ & Ho & He).
  - vm_compute. reflexivity.
  - reflexivity.
  - vm_compute. reflexivity.
  - vm_compute. reflexivity.
  - vm_compute. reflexivity.
  - exists st2. split_and!; assumption.
Defined.

(** ** Broadcasting *)

Section broadcasting.
Context {T : Type}.
Implicit Types d : list T.

Lemma size_of_cons n s : size_of (n :: s) = n * size_of s.
Proof. done. Qed.

Lemma size_of_strip_ones extra s : size_of (strip_ones extra s) = size_of s.
Proof.
  revert s. induction extra as [|extra IH]; intros s; [by destruct s|].
  destruct s as [|[|[|n]] s]; cbn [strip_ones]; try done.
  rewrite IH, size_of_cons. lia.
Qed.

Lemma size_of_pad_shape n s : size_of (pad_shape n s) = size_of s.
Proof.
  unfold pad_shape. induction (n - length s) as [|k IH]; [done|].
  cbn [replicate app]. rewrite size_of_cons, IH. lia.
Qed.

Lemma length_pad_shape n s : length s ≤ n → length (pad_shape n s) = n.
Proof. intros. unfold pad_shape. rewrite length_app, length_replicate. lia. Qed.

Lemma bcast_ok_refl s : bcast_ok s s = true.
Proof.
  induction s as [|n s IH]; [done|]. simpl.
  by rewrite bool_decide_true, IH.
Qed.

Lemma Forall_length_reshape m sz d :
  length d = m * sz →
  Forall (λ l, length l = sz) (reshape (replicate m sz) d).
Proof.
  revert d. induction m as [|m IH]; intros d Hd; simpl; [done|].
  constructor.
  - rewrite length_take. lia.
  - apply IH. rewrite length_drop. lia.
Qed.

Lemma length_join_same (ls : list (list T)) k :
  Forall (λ l, length l = k) ls → length (mjoin ls) = length ls * k.
Proof.
  induction 1 as [|l ls Hl _ IH]; [done|]. csimpl.
  rewrite length_app, IH, Hl. lia.
Qed.

Lemma join_reshape_same m sz d :
  length d = m * sz → mjoin (reshape (replicate m sz) d) = d.
Proof.
  intros Hd. apply join_reshape. by rewrite sum_list_replicate.
Qed.

(** The broadcast of a well-formed array has as many elements as the
    target shape. *)
Lemma length_bcast src tgt d :
  bcast_ok src tgt = true → length d = size_of src →
  length (bcast src tgt d) = size_of tgt.
Proof.
  revert tgt d. induction src as [|m src IH]; intros [|n tgt] d Hok Hd;
    try done.
  cbn [bcast_ok] in Hok. apply andb_prop in Hok as [Hmn Hok].
  rewrite size_of_cons in Hd. cbn [bcast]. rewrite size_of_cons.
  destruct (decide (m = n)) as [->|Hne].
  - rewrite (length_join_same _ (size_of tgt)).
    + by rewrite length_fmap, length_reshape, length_replicate.
    + apply Forall_fmap.
      eapply Forall_impl; [by apply Forall_length_reshape|].
      intros l Hl. simpl. by apply IH.
  - apply orb_prop in Hmn as [Hmn|Hmn]; apply bool_decide_eq_true in Hmn;
      [done|subst m].
    rewrite (length_join_same _ (size_of tgt)).
    + by rewrite length_replicate.
    + apply Forall_replicate. apply IH; [done|lia].
Qed.

(** Broadcasting to the array's own shape changes nothing. *)
Lemma bcast_id s d : length d = size_of s → bcast s s d = d.
Proof.
  revert d. induction s as [|m s IH]; intros d Hd; [done|].
  rewrite size_of_cons in Hd. cbn [bcast]. rewrite decide_True by done.
  rewrite <-(join_reshape_same m (size_of s) d) at 2 by done. f_equal.
  rewrite <-(list_fmap_id (reshape _ d)) at 2.
  apply Forall_fmap_ext.
  eapply Forall_impl; [by apply Forall_length_reshape|].
  intros l Hl. simpl. by apply IH.
Qed.

(** A new leading axis replicates the whole array. *)
Lemma bcast_leading_one s t B d :
  length d = size_of s →
  bcast (1 :: s) (B :: t) d = np_tile (bcast s t d) B.
Proof.
  intros Hd. cbn [bcast]. unfold np_tile. destruct (decide (1 = B)) as [<-|]; [|done].
  simpl. rewrite take_ge by lia. done.
Qed.

Lemma take_drop_np_tile (a : list T) n b :
  b < n → take (length a) (drop (b * length a) (np_tile a n)) = a.
Proof.
  intros Hb. apply list_eq. intros i.
  destruct (decide (i < length a)) as [Hi|Hi].
  - rewrite lookup_take_lt by done. rewrite lookup_drop.
    by apply lookup_np_tile.
  - rewrite lookup_take_ge by lia. symmetry. apply lookup_ge_None. lia.
Qed.
End broadcasting.

(** ** Derivative assembly *)

 
Section assembly.
Context {T : Type} `{!Float64 T} `{!Engine T} `{!Host T}.
Local Abbreviation Comp := (SplineComp T Core Opts).
Local Abbreviation Interp := (InterpND T Core).

Lemma Ret_inj {A} (x y : A) : Ret x = Ret y → x = y.
Proof. by intros [=]. Qed.

Lemma np_assign_data_inv dshape (src : ndarray T) d :
  wf_ndarray src →
  np_assign_data dshape src = Ret d →
  assignable (shape src) dshape = true ∧ length d = size_of dshape.
Proof.
  unfold np_assign_data, assignable, ndim. intros Hwf.
  destruct (_ && _) eqn:Hok; [|done]. intros [= <-]. split; [done|].
  apply andb_prop in Hok as [Hlen Hok]. apply bool_decide_eq_true in Hlen.
  apply length_bcast; [done|].
  by rewrite size_of_pad_shape, size_of_strip_ones.
Qed.

Lemma np_setall_inv (dst src out : ndarray T) :
  wf_ndarray src → np_setall dst src = Ret out →
  shape out = shape dst ∧ wf_ndarray out ∧ assignable (shape src) (shape dst) = true.
Proof.
  unfold np_setall, res_bind. intros Hwf.
  destruct (np_assign_data _ _) as [d|e] eqn:E; [|done]. intros [= <-].
  apply np_assign_data_inv in E as [Hok Hlen]; done.
Qed.

Lemma np_setall_same_shape (dst src : ndarray T) :
  wf_ndarray src → shape src = shape dst →
  np_setall dst src = Ret src.
Proof.
  intros Hwf Hs. unfold np_setall, np_assign_data, assignable, ndim, res_bind.
  rewrite Hs, Nat.sub_diag. cbn [strip_ones].
  unfold pad_shape. rewrite Nat.sub_diag. cbn [replicate app].
  rewrite bcast_ok_refl, bool_decide_true by done. cbn [andb].
  rewrite bcast_id by (by rewrite <-Hs). rewrite <-Hs. by destruct src.
Qed.

Lemma np_broadcast_to_new_axis (a : ndarray T) r c B n_interp n_cp out :
  shape a = [r; c] → wf_ndarray a →
  np_broadcast_to a [B; n_interp; n_cp] = Ret out →
  bcast_ok [r; c] [n_interp; n_cp] = true ∧
  out = mk_ndarray [B; n_interp; n_cp]
          (np_tile (bcast [r; c] [n_interp; n_cp] (data a)) B) ∧
  length (bcast [r; c] [n_interp; n_cp] (data a)) = n_interp * n_cp.
Proof.
  intros Hs Hwf. unfold np_broadcast_to, ndim, pad_shape. rewrite Hs.
  cbn [length Nat.sub replicate app]. rewrite decide_True by lia.
  destruct (bcast_ok [1; r; c] _) eqn:Hok; [|done].
  intros <-%Ret_inj. cbn [bcast_ok] in Hok. apply andb_prop in Hok as [_ Hok].
  unfold wf_ndarray in Hwf. rewrite Hs in Hwf.
  split_and!; [done| |].
  - by rewrite bcast_leading_one.
  - rewrite (length_bcast _ [n_interp; n_cp]) by done. apply size_of_2.
Qed.

Lemma np_setrow_inv (dst : ndarray T) n m k val out :
  shape dst = [n; m] → length (data dst) = n * m → wf_ndarray val →
  np_setrow dst k val = Ret out →
  shape out = [n; m] ∧ length (data out) = n * m.
Proof.
  intros Hs Hlen Hwf. unfold np_setrow, res_bind. rewrite Hs.
  case_decide as Hk; [|done].
  destruct (np_assign_data _ _) as [row|e] eqn:E; [|done]. intros [= <-].
  apply np_assign_data_inv in E as [_ Hrow]; [|done].
  split; [done|]. cbn [data]. unfold size_of in Hrow. simpl in Hrow.
  rewrite !length_app, length_take, length_drop. nia.
Qed.

Lemma gradient_rows_inv (interp : Interp) x n_cp n_interp ks dy out :
  (∀ k v, training_gradients interp (slice1 x k) = Ret v → wf_ndarray v) →
  shape dy = [n_interp; n_cp] → length (data dy) = n_interp * n_cp →
  res_fold (λ dy k,
              let* val := training_gradients interp (slice1 x k) in
              np_setrow dy k val) dy ks = Ret out →
  shape out = [n_interp; n_cp] ∧ length (data out) = n_interp * n_cp.
Proof.
  intros Hwf. revert dy. induction ks as [|k ks IH]; intros dy Hs Hlen; simpl.
  { by intros [= <-]. }
  unfold res_bind at 1. unfold res_bind at 1.
  destruct (training_gradients _ _) as [val|e] eqn:Eg; [|done].
  destruct (np_setrow dy k val) as [dy'|e] eqn:Er; [|done].
  eapply np_setrow_inv in Er as [Hs' Hlen']; eauto.
Qed.

(** The assembled array has the shape [(B, n_interp, n_cp)] and that
    many elements. *)
Lemma assemble_shape B n_interp (n_cp : option nat) x (interp : Interp) dy :
  engine_output_wf x interp →
  assemble_dy_ddata B n_interp n_cp x interp = Ret dy →
  ∃ n, n_cp = Some n ∧ shape dy = [B; n_interp; n] ∧
       length (data dy) = B * n_interp * n.
Proof.
  unfold engine_output_wf, assemble_dy_ddata. intros Hwf.
  destruct n_cp as [n|]; [|destruct (_d_dvalues interp); simpl; done].
  intros Ha. exists n. split; [done|]. rewrite <-size_of_3.
  destruct (_d_dvalues interp) as [d|]; simpl in Ha.
  - destruct (shape0 _) as [s0|e]; [|done]. simpl in Ha.
    case_decide as Hs0.
    + destruct d as [a|r c content]; [|done].
      apply np_setall_inv in Ha as (Hs & Hw & _); [|done].
      split; [done|]. unfold wf_ndarray in Hw. by rewrite Hs in Hw.
    + destruct d as [a|r c content]; [done|]. simpl in Ha, Hwf.
      destruct (np_broadcast_to _ _) as [b|e] eqn:Eb; [|done]. simpl in Ha.
      apply np_broadcast_to_new_axis with (r := r) (c := c) in Eb
        as (_ & -> & Hlen); [|done|by unfold wf_ndarray; cbn [shape data]; rewrite size_of_2].
      rewrite np_setall_same_shape in Ha.
      * apply Ret_inj in Ha as <-. split; [done|]. cbn [data] in *.
        rewrite length_np_tile, Hlen, size_of_3. lia.
      * unfold wf_ndarray. cbn [data shape] in *.
        rewrite length_np_tile, Hlen, size_of_3. lia.
      * done.
  - destruct (res_fold _ _ _) as [dy2|e] eqn:Ef; [|done]. simpl in Ha.
    apply gradient_rows_inv with (n_cp := n) (n_interp := n_interp) in Ef
      as [Hs2 Hl2]; [|done|done|].
    2:{ cbn. rewrite length_replicate. apply size_of_2. }
    apply np_broadcast_to_new_axis with (r := n_interp) (c := n) in Ha
      as (_ & -> & Hlen); [|done|].
    2:{ unfold wf_ndarray. by rewrite Hs2, size_of_2. }
    split; [done|]. cbn [data]. rewrite length_np_tile, Hlen, size_of_3. lia.
Qed.

(** With a batch-invariant source the assembled array is one block,
    repeated for every batch element. *)
Lemma assemble_batch_invariant B n_interp n x (interp : Interp) dy :
  batch_invariant_source B (_d_dvalues interp) →
  engine_output_wf x interp →
  assemble_dy_ddata B n_interp (Some n) x interp = Ret dy →
  ∃ blk, length blk = n_interp * n ∧
         dy = mk_ndarray [B; n_interp; n] (np_tile blk B).
Proof.
  unfold batch_invariant_source, engine_output_wf, assemble_dy_ddata.
  intros Hinv Hwf Ha.
  destruct (_d_dvalues interp) as [[a|r c content]|]; [done| |]; simpl in Ha.
  - rewrite decide_False in Ha by done. simpl in Ha, Hwf.
    destruct (np_broadcast_to _ _) as [b|e] eqn:Eb; [|done]. simpl in Ha.
    apply np_broadcast_to_new_axis with (r := r) (c := c) in Eb
      as (_ & -> & Hlen); [|done|by unfold wf_ndarray; cbn [shape data]; rewrite size_of_2].
    rewrite np_setall_same_shape in Ha.
    + apply Ret_inj in Ha as <-. by eexists.
    + unfold wf_ndarray. cbn [data shape] in *.
      rewrite length_np_tile, Hlen, size_of_3. lia.
    + done.
  - destruct (res_fold _ _ _) as [dy2|e] eqn:Ef; [|done]. simpl in Ha.
    apply gradient_rows_inv with (n_cp := n) (n_interp := n_interp) in Ef
      as [Hs2 Hl2]; [|done|done|].
    2:{ cbn. rewrite length_replicate. apply size_of_2. }
    apply np_broadcast_to_new_axis with (r := n_interp) (c := n) in Ha
      as (_ & -> & Hlen); [|done|].
    2:{ unfold wf_ndarray. by rewrite Hs2, size_of_2. }
    by eexists.
Qed.

Lemma np_setrow_total (dst val : ndarray T) n m k :
  shape dst = [n; m] → k < n → shape val = [m] →
  ∃ out, np_setrow dst k val = Ret out ∧ shape out = [n; m].
Proof.
  intros Hs Hk Hv.
  unfold np_setrow, np_assign_data, assignable, ndim. rewrite Hs, Hv.
  rewrite decide_True by done. cbn [length Nat.sub strip_ones].
  unfold pad_shape. cbn [length Nat.sub replicate app].
  rewrite bcast_ok_refl, bool_decide_true by done. cbn [andb res_bind].
  by eexists.
Qed.

Lemma gradient_rows_total (interp : Interp) x n_cp n_interp ks dy :
  (∀ k, k < n_interp →
        ∃ v, training_gradients interp (slice1 x k) = Ret v ∧ shape v = [n_cp]) →
  Forall (λ k, k < n_interp) ks →
  shape dy = [n_interp; n_cp] →
  ∃ out, res_fold (λ dy k,
                     let* val := training_gradients interp (slice1 x k) in
                     np_setrow dy k val) dy ks = Ret out ∧
         shape out = [n_interp; n_cp].
Proof.
  intros Hg Hks. revert dy. induction Hks as [|k ks Hk _ IH]; intros dy Hs.
  { by exists dy. }
  cbn [res_fold]. destruct (Hg k Hk) as (v & -> & Hv). cbn [res_bind].
  destruct (np_setrow_total dy v n_interp n_cp k Hs Hk Hv) as (dy' & -> & Hs').
  cbn [res_bind]. by apply IH.
Qed.

Lemma assemble_total B n_interp n_cp x (interp : Interp) :
  batch_invariant_source B (_d_dvalues interp) →
  engine_output_wf x interp →
  expected_source n_interp n_cp x interp →
  is_Ret (assemble_dy_ddata B n_interp (Some n_cp) x interp).
Proof.
  unfold batch_invariant_source, engine_output_wf, expected_source,
    assemble_dy_ddata.
  intros Hinv Hwf Hexp.
  assert (bcast_ok (pad_shape 3 [n_interp; n_cp]) [B; n_interp; n_cp] = true)
    as Hok.
  { unfold pad_shape. cbn [length Nat.sub replicate app bcast_ok].
    rewrite !andb_true_iff, !orb_true_iff, !bool_decide_eq_true.
    split_and!; auto. }
  destruct (_d_dvalues interp) as [[a|r c content]|]; [done| |].
  - destruct Hexp as [-> ->]. cbn [from_option res_bind deriv_shape shape0].
    rewrite decide_False by done. cbn [deriv_toarray res_bind].
    destruct (np_broadcast_to _ _) as [b|e] eqn:Eb.
    + cbn [res_bind].
      apply np_broadcast_to_new_axis with (r := n_interp) (c := n_cp) in Eb
        as (_ & -> & Hlen); [|done|by unfold wf_ndarray; cbn [shape data]; rewrite size_of_2].
      rewrite np_setall_same_shape; [by eexists| |done].
      unfold wf_ndarray. cbn [data shape] in *.
      rewrite length_np_tile, Hlen, size_of_3. lia.
    + exfalso. revert Eb. unfold np_broadcast_to, ndim. cbn [shape length].
      rewrite decide_True by lia. by rewrite Hok.
  - cbn [from_option res_bind].
    destruct (gradient_rows_total interp x n_cp n_interp (seq 0 n_interp)
                (np_zeros [n_interp; n_cp]) Hexp) as (dy2 & -> & Hs2); [|done|].
    { apply Forall_forall. intros k Hk%elem_of_seq. lia. }
    cbn [res_bind]. unfold np_broadcast_to, ndim. rewrite Hs2. cbn [length].
    rewrite decide_True by lia. rewrite Hok. by eexists.
Qed.

Lemma ravel_3 B n_interp n_cp b k j :
  b < B → k < n_interp → j < n_cp →
  ravel [B; n_interp; n_cp] [b; k; j] 0 = Some (b * (n_interp * n_cp) + k * n_cp + j).
Proof.
  intros Hb Hk Hj. cbn [ravel]. rewrite !decide_True by done. f_equal. lia.
Qed.

(** The rows assembled from the gradients: starting at row [k0], the
    gradients [gs] replace the rows one after the other. *)
Lemma gradient_rows_value (interp : Interp) x n_interp n_cp gs k0 dy pre rest :
  (∀ i v, gs !! i = Some v →
          training_gradients interp (slice1 x (k0 + i)) = Ret v ∧
          shape v = [n_cp] ∧ wf_ndarray v) →
  k0 + length gs ≤ n_interp →
  shape dy = [n_interp; n_cp] →
  data dy = pre ++ rest →
  length pre = k0 * n_cp →
  length rest = length gs * n_cp →
  res_fold (λ dy k,
              let* val := training_gradients interp (slice1 x k) in
              np_setrow dy k val) dy (seq k0 (length gs))
  = Ret (mk_ndarray [n_interp; n_cp] (pre ++ mjoin (data <$> gs))).
Proof.
  revert k0 dy pre rest.
  induction gs as [|v gs IH]; intros k0 dy pre rest Hg Hk Hs Hd Hpre Hrest.
  { cbn [length seq res_fold fmap list_fmap mjoin list_join] in *.
    destruct rest; [|done]. rewrite <-Hd, <-Hs. by destruct dy. }
  cbn [length seq res_fold] in *.
  destruct (Hg 0 v eq_refl) as (Hv & Hsv & Hwv). rewrite Nat.add_0_r in Hv.
  rewrite Hv. cbn [res_bind].
  unfold np_setrow at 1. rewrite Hs. rewrite decide_True by lia.
  unfold np_assign_data, assignable, ndim. rewrite Hsv.
  cbn [length Nat.sub strip_ones]. unfold pad_shape.
  cbn [length Nat.sub replicate app].
  rewrite bcast_ok_refl, bool_decide_true by done. cbn [andb res_bind].
  rewrite bcast_id by (by rewrite <-Hsv).
  assert (length (data v) = n_cp) as Hlv.
  { unfold wf_ndarray in Hwv. rewrite Hsv in Hwv. unfold size_of in Hwv.
    simpl in Hwv. lia. }
  rewrite Hd.
  rewrite (take_app_length' pre rest (k0 * n_cp)) by done.
  rewrite (drop_app_add' pre rest (k0 * n_cp) n_cp) by done.
  rewrite fmap_cons. cbn [mjoin list_join].
  rewrite !(app_assoc pre (data v)).
  apply (IH (S k0) _ (pre ++ data v) (drop n_cp rest)).
  - intros i v' Hi. replace (S k0 + i) with (k0 + S i) by lia. by apply Hg.
  - lia.
  - done.
  - done.
  - rewrite length_app. lia.
  - rewrite length_drop. lia.
Qed.

Lemma gradients_list (P : nat → ndarray T → Prop) n :
  (∀ k, k < n → ∃ v, P k v) →
  ∃ gs, length gs = n ∧ ∀ k v, gs !! k = Some v → P k v.
Proof.
  induction n as [|n IH]; intros HP.
  { exists []. split; [done|]. by intros k v ?. }
  destruct IH as (gs & Hlen & Hgs); [intros k Hk; apply HP; lia|].
  destruct (HP n) as [v Hv]; [lia|].
  exists (gs ++ [v]). split; [rewrite length_app; simpl; lia|].
  intros k v' Hk. apply lookup_app_Some in Hk as [Hk|[Hge Hk]]; [by apply Hgs|].
  rewrite Hlen in *. apply list_lookup_singleton_Some in Hk as [Hk <-].
  by replace k with n by lia.
Qed.

(** The array assembled from a sparse matrix of the expected extents. *)
Lemma assemble_sparse_value B n_interp n_cp x (interp : Interp) content :
  _d_dvalues interp = Some (Sparse n_interp n_cp content) →
  n_interp ≠ B →
  length content = n_interp * n_cp →
  assemble_dy_ddata B n_interp (Some n_cp) x interp =
    Ret (mk_ndarray [B; n_interp; n_cp] (np_tile content B)).
Proof.
  intros Hd Hne Hlen.
  assert (engine_output_wf x interp) as Hwf.
  { unfold engine_output_wf. by rewrite Hd. }
  destruct (assemble_total B n_interp n_cp x interp)
    as [dy Hdy]; [by rewrite Hd|done|by unfold expected_source; rewrite Hd|].
  rewrite Hdy. f_equal.
  revert Hdy. unfold assemble_dy_ddata. rewrite Hd.
  cbn [from_option res_bind deriv_shape shape0].
  rewrite decide_False by done. cbn [deriv_toarray res_bind].
  destruct (np_broadcast_to _ _) as [b|e] eqn:Eb; [|done]. cbn [res_bind].
  apply np_broadcast_to_new_axis with (r := n_interp) (c := n_cp) in Eb
    as (_ & -> & Hl); [|done|by unfold wf_ndarray; cbn [shape data]; rewrite size_of_2].
  cbn [data] in *. rewrite bcast_id in * by (by rewrite size_of_2).
  rewrite np_setall_same_shape; [by intros <-%Ret_inj| |done].
  unfold wf_ndarray. cbn [data shape]. rewrite length_np_tile, Hlen, size_of_3. lia.
Qed.

(** The array assembled from the gradients [gs] at the query points. *)
Lemma assemble_gradients_value B n_cp x (interp : Interp) gs :
  _d_dvalues interp = None →
  (∀ k v, gs !! k = Some v →
          training_gradients interp (slice1 x k) = Ret v ∧
          shape v = [n_cp] ∧ wf_ndarray v) →
  assemble_dy_ddata B (length gs) (Some n_cp) x interp =
    Ret (mk_ndarray [B; length gs; n_cp] (np_tile (mjoin (data <$> gs)) B)) ∧
  length (mjoin (data <$> gs)) = length gs * n_cp.
Proof.
  intros Hd Hg.
  assert (length (mjoin (data <$> gs)) = length gs * n_cp) as Hl.
  { rewrite (length_join_same _ n_cp); [by rewrite length_fmap|].
    apply Forall_fmap, Forall_lookup. intros k v Hk.
    destruct (Hg k v Hk) as (_ & Hs & Hw). unfold wf_ndarray in Hw.
    rewrite Hs in Hw. unfold size_of in Hw. simpl in *. lia. }
  split; [|done].
  unfold assemble_dy_ddata. rewrite Hd. cbn [from_option res_bind].
  rewrite (gradient_rows_value interp x (length gs) n_cp gs 0
             (np_zeros [length gs; n_cp]) []
             (data (np_zeros [length gs; n_cp]))).
  - cbn [res_bind app].
    unfold np_broadcast_to, ndim, pad_shape.
    cbn [shape length Nat.sub replicate app data].
    rewrite decide_True by lia.
    assert (bcast_ok [1; length gs; n_cp] [B; length gs; n_cp] = true) as ->.
    { cbn [bcast_ok].
      rewrite !andb_true_iff, !orb_true_iff, !bool_decide_eq_true.
      split_and!; auto. }
    rewrite bcast_leading_one by (by rewrite size_of_2).
    rewrite bcast_id by (by rewrite size_of_2). done.
  - intros i v Hi. by apply Hg.
  - lia.
  - done.
  - done.
  - done.
  - cbn. rewrite length_replicate. unfold size_of. simpl. lia.
Qed.

Lemma np_block_tiled B n_interp n_cp (blk : list T) b :
  length blk = n_interp * n_cp → b < B →
  np_block (mk_ndarray [B; n_interp; n_cp] (np_tile blk B)) b =
    mk_ndarray [n_interp; n_cp] blk.
Proof.
  intros Hlen Hb. unfold np_block. cbn [shape data tail].
  rewrite size_of_2, <-Hlen. f_equal. by apply take_drop_np_tile.
Qed.

(** C5.  With a batch-invariant derivative source (a sparse matrix whose
    leading extent differs from the batch size, or no derivative cache,
    so that gradients are queried point by point), the assembled array
    holds [B * n_interp * n_cp] elements and each of its [B] batch blocks
    is the same block of [n_interp * n_cp] elements.  When the source has
    the expected extents the array is assembled, and the block is the
    engine's: the dense content of the sparse matrix, or row by row the
    gradient the engine returns at each query point. *)
Theorem assembled_blocks_identical B n_interp n_cp x (interp : Interp) :
  batch_invariant_source B (_d_dvalues interp) →
  engine_output_wf x interp →
  (∀ dy, assemble_dy_ddata B n_interp (Some n_cp) x interp = Ret dy →
     shape dy = [B; n_interp; n_cp] ∧
     length (data dy) = B * n_interp * n_cp ∧
     ∀ b, b < B →
       np_block dy b = np_block dy 0 ∧
       length (data (np_block dy b)) = n_interp * n_cp) ∧
  (expected_source n_interp n_cp x interp →
   ∃ dy,
     assemble_dy_ddata B n_interp (Some n_cp) x interp = Ret dy ∧
     match _d_dvalues interp with
     | Some (Sparse _ _ content) =>
         ∀ b, b < B → np_block dy b = mk_ndarray [n_interp; n_cp] content
     | Some (Dense _) => False
     | None =>
         ∀ b k j v, b < B → k < n_interp → j < n_cp →
           training_gradients interp (slice1 x k) = Ret v →
           ∃ e, data v !! j = Some e ∧ np_item dy [b; k; j] = Some e
     end).
Proof.
  intros Hinv Hwf. split.
  - intros dy Ha.
    destruct (assemble_batch_invariant _ _ _ _ _ _ Hinv Hwf Ha) as (blk & Hlen & ->).
    split_and!; [done|cbn [data]; rewrite length_np_tile; lia|].
    intros b Hb. rewrite !np_block_tiled by (done || lia). done.
  - intros Hexp. unfold batch_invariant_source, engine_output_wf, expected_source in *.
    destruct (_d_dvalues interp) as [[a|r c content]|] eqn:Hd; [done| |].
    + destruct Hexp as [-> ->]. cbn [wf_deriv] in Hwf.
      eexists. split; [by apply assemble_sparse_value|].
      intros b Hb. by apply np_block_tiled.
    + destruct (gradients_list
                  (λ k v, training_gradients interp (slice1 x k) = Ret v ∧
                          shape v = [n_cp] ∧ wf_ndarray v) n_interp)
        as (gs & Hlen & Hgs).
      { intros k Hk. destruct (Hexp k Hk) as (v & Hv & Hs). exists v. eauto. }
      destruct (assemble_gradients_value B n_cp x interp gs Hd Hgs) as [Ha Hl].
      rewrite Hlen in Ha, Hl. eexists. split; [exact Ha|].
      intros b k j v Hb Hk Hj Hv.
      destruct (lookup_lt_is_Some_2 gs k) as [v' Hv']; [lia|].
      destruct (Hgs k v' Hv') as (Hv'' & Hs & Hw).
      rewrite Hv in Hv''. apply Ret_inj in Hv'' as <-.
      assert (length (data v) = n_cp) as Hlv.
      { unfold wf_ndarray in Hw. rewrite Hs in Hw. unfold size_of in Hw.
        simpl in Hw. lia. }
      destruct (lookup_lt_is_Some_2 (data v) j) as [e He]; [lia|].
      exists e. split; [done|].
      unfold np_item. cbn [shape data]. rewrite ravel_3 by done.
      cbn [mbind option_bind].
      rewrite <-Nat.add_assoc, <-Hl.
      rewrite lookup_np_tile by (done || rewrite Hl; nia).
      apply (join_lookup_Some_same_length' n_cp); [|done|].
      * apply Forall_fmap, Forall_lookup. intros k0 v0 Hk0.
        destruct (Hgs k0 v0 Hk0) as (_ & Hs0 & Hw0). unfold wf_ndarray in Hw0.
        rewrite Hs0 in Hw0. unfold size_of in Hw0. simpl in *. lia.
      * exists (data v). split; [|done]. by rewrite list_lookup_fmap, Hv'.
Qed.

Lemma np_reshape_flatten (dy : ndarray T) :
  wf_ndarray dy → np_reshape (np_flatten dy) (shape dy) = Ret dy.
Proof.
  unfold wf_ndarray, np_reshape, np_flatten. intros Hwf. cbn [data].
  rewrite decide_True by done. by destruct dy.
Qed.

(** One iteration of the loop of [compute_partials]. *)
Lemma compute_partials_spline_inv (c : Comp) item partials partials' r :
  compute_partials_spline c item partials = (r, partials') →
  (∀ key, key.1 ≠ item.1 → partials' !! key = partials !! key) ∧
  match r with
  | Ret _ =>
      ∃ cp_name dy,
        interp_to_cp c !! item.1 = Some cp_name ∧
        assemble_dy_ddata (vec_size (options c)) (length (x_interp_val (options c)))
          (_n_cp c) (x_interp_val (options c)) item.2 = Ret dy ∧
        partials' = <[(item.1, cp_name) := np_flatten dy]> partials
  | Raise _ => partials' = partials
  end.
Proof.
  unfold compute_partials_spline, m_bind, m_lift, m_modify, dict_get.
  destruct (interp_to_cp c !! item.1) as [cp_name|]; [|by intros [= <- <-]].
  destruct (assemble_dy_ddata _ _ _ _ _) as [dy|e]; [|by intros [= <- <-]].
  intros [= <- <-]. split.
  - intros [o w] Hne. apply lookup_insert_ne. simpl in Hne. congruence.
  - by exists cp_name, dy.
Qed.

Lemma compute_partials_loop_inv (c : Comp) l partials partials' :
  NoDup l.*1 →
  m_for l (compute_partials_spline c) partials = (Ret tt, partials') →
  (∀ key, key.1 ∉ l.*1 → partials' !! key = partials !! key) ∧
  ∀ item, item ∈ l →
    ∃ cp_name dy,
      interp_to_cp c !! item.1 = Some cp_name ∧
      assemble_dy_ddata (vec_size (options c)) (length (x_interp_val (options c)))
        (_n_cp c) (x_interp_val (options c)) item.2 = Ret dy ∧
      partials' !! (item.1, cp_name) = Some (np_flatten dy).
Proof.
  revert partials. induction l as [|item l IH]; intros partials Hnd; cbn [m_for].
  { intros [= <-]. split; [done|]. by intros ? ?%elem_of_nil. }
  rewrite fmap_cons in Hnd. apply NoDup_cons in Hnd as [Hnotin Hnd].
  unfold m_bind at 1.
  destruct (compute_partials_spline c item partials) as [r1 p1] eqn:E1.
  apply compute_partials_spline_inv in E1 as [Hother Hr1].
  destruct r1 as [[]|e]; [|done].
  destruct Hr1 as (cp_name & dy & Hcp & Hdy & ->).
  intros [Hkeep Hall]%IH; [|done]. split.
  - intros key Hkey. rewrite fmap_cons, not_elem_of_cons in Hkey.
    destruct Hkey as [Hk1 Hk2]. rewrite Hkeep by done. by apply Hother.
  - intros item' [->|Hin]%elem_of_cons; [|by apply Hall].
    exists cp_name, dy. split_and!; [done..|].
    rewrite Hkeep by done. apply lookup_insert_eq.
Qed.

Lemma np_flatten_row_major B n_interp n_cp (dy : ndarray T) :
  shape dy = [B; n_interp; n_cp] →
  length (data dy) = B * n_interp * n_cp →
  row_major_flattening B n_interp n_cp dy (np_flatten dy).
Proof.
  intros Hs Hlen.
  assert (∀ b k j, b < B → k < n_interp → j < n_cp →
     ∃ v, np_item dy [b; k; j] = Some v ∧
          data (np_flatten dy) !! (b * (n_interp * n_cp) + k * n_cp + j) = Some v)
    as Hitem.
  { intros b k j Hb Hk Hj. unfold np_item. rewrite Hs, ravel_3 by done.
    cbn [np_flatten data mbind option_bind].
    destruct (lookup_lt_is_Some_2 (data dy) (b * (n_interp * n_cp) + k * n_cp + j))
      as [v Hv].
    { rewrite Hlen. assert (k * n_cp + j < n_interp * n_cp) by nia.
      assert (b * (n_interp * n_cp) + (n_interp * n_cp) ≤ B * (n_interp * n_cp))
        by nia. lia. }
    exists v. by rewrite Hv. }
  split_and!; [done|by cbn; rewrite Hlen|done| |done|].
  - rewrite <-Hs. apply np_reshape_flatten. unfold wf_ndarray.
    by rewrite Hs, size_of_3.
  - intros rows cols i r cc Hr Hc Hri Hci.
    pose proof (lookup_lt_Some _ _ _ Hri) as Hi.
    rewrite (sparsity_rows_length _ _ _ _ Hr) in Hi.
    destruct (pattern_position _ _ _ _ Hi) as (b & k & j & Hb & Hk & Hj & ->).
    rewrite (sparsity_rows_lookup _ _ _ _ _ _ _ Hr Hb Hk Hj) in Hri.
    rewrite (sparsity_cols_lookup _ _ _ _ _ _ _ Hc Hb Hk Hj) in Hci.
    simplify_eq. rewrite !div_block, !mod_block by done. split; [done|].
    by apply Hitem.
Qed.

Lemma compute_partials_loop_frame (c : Comp) l partials partials' r key :
  m_for l (compute_partials_spline c) partials = (r, partials') →
  key.1 ∉ l.*1 → partials' !! key = partials !! key.
Proof.
  revert partials. induction l as [|item l IH]; intros partials; cbn [m_for].
  { by intros [= <- <-]. }
  unfold m_bind at 1.
  destruct (compute_partials_spline c item partials) as [r1 p1] eqn:E1.
  apply compute_partials_spline_inv in E1 as [Hother _].
  rewrite fmap_cons, not_elem_of_cons. intros Hrest [Hne Hnot].
  rewrite <-(Hother key Hne).
  destruct r1 as [[]|e]; [by apply IH|]. by injection Hrest as <- <-.
Qed.

Lemma compute_partials_loop_written (c : Comp) l partials partials' r key :
  NoDup l.*1 →
  m_for l (compute_partials_spline c) partials = (r, partials') →
  partials' !! key ≠ partials !! key →
  ∃ interp dy,
    (key.1, interp) ∈ l ∧ interp_to_cp c !! key.1 = Some key.2 ∧
    assemble_dy_ddata (vec_size (options c)) (length (x_interp_val (options c)))
      (_n_cp c) (x_interp_val (options c)) interp = Ret dy ∧
    partials' !! key = Some (np_flatten dy).
Proof.
  revert partials. induction l as [|item l IH]; intros partials Hnd; cbn [m_for].
  { by intros [= <- <-]. }
  rewrite fmap_cons in Hnd. apply NoDup_cons in Hnd as [Hfresh Hnd].
  unfold m_bind at 1.
  destruct (compute_partials_spline c item partials) as [r1 p1] eqn:E1.
  apply compute_partials_spline_inv in E1 as [_ Hr].
  intros Hrest Hne. destruct r1 as [[]|e].
  - destruct Hr as (cp_name & dy & Hcp & Hdy & ->).
    destruct (decide (key = (item.1, cp_name))) as [->|Hk].
    + exists item.2, dy. cbn [fst snd]. split_and!; [|done|done|].
      * destruct item. by left.
      * rewrite (compute_partials_loop_frame _ _ _ _ _ _ Hrest) by done.
        apply lookup_insert_eq.
    + destruct (IH _ Hnd Hrest) as (interp & dy' & Hin & ? & ? & ?).
      { by rewrite lookup_insert_ne. }
      exists interp, dy'. split_and!; [by right|done..].
  - subst p1. injection Hrest as <- <-. done.
Qed.

(** C4.  Whatever [compute_partials] writes for a spline, however the call
    ends, is the flattening of the spline's assembled array [dy_ddata]:
    a one-dimensional array of [B * n_interp * n_cp] elements that
    reshapes back to [dy_ddata] of shape [(B, n_interp, n_cp)], whose
    element [b * (n_interp * n_cp) + k * n_cp + j] is [dy_ddata[b, k, j]]
    and whose element [i] is the entry of the Jacobian at row [rows[i]]
    and column [cols[i]] of the declared pattern.  When the call
    completes, this value is written for every spline. *)
Theorem compute_partials_flattening (c : Comp) partials partials' r :
  NoDup (interps c).*1 →
  (∀ item, item ∈ interps c → engine_output_wf (x_interp_val (options c)) item.2) →
  compute_partials c partials = (r, partials') →
  let B := vec_size (options c) in
  let n_interp := length (x_interp_val (options c)) in
  (∀ key, partials' !! key ≠ partials !! key →
     ∃ interp n_cp dy,
       (key.1, interp) ∈ interps c ∧
       interp_to_cp c !! key.1 = Some key.2 ∧ _n_cp c = Some n_cp ∧
       assemble_dy_ddata B n_interp (Some n_cp) (x_interp_val (options c)) interp
         = Ret dy ∧
       partials' !! key = Some (np_flatten dy) ∧
       row_major_flattening B n_interp n_cp dy (np_flatten dy)) ∧
  (r = Ret tt →
   ∀ out_name interp, (out_name, interp) ∈ interps c →
     ∃ cp_name n_cp dy,
       interp_to_cp c !! out_name = Some cp_name ∧ _n_cp c = Some n_cp ∧
       assemble_dy_ddata B n_interp (Some n_cp) (x_interp_val (options c)) interp
         = Ret dy ∧
       partials' !! (out_name, cp_name) = Some (np_flatten dy) ∧
       row_major_flattening B n_interp n_cp dy (np_flatten dy)).
Proof.
  intros Hnd Hwf Hrun B n_interp. split.
  - intros key Hne.
    destruct (compute_partials_loop_written _ _ _ _ _ _ Hnd Hrun Hne)
      as (interp & dy & Hin & Hcp & Hdy & Hp).
    destruct (assemble_shape _ _ _ _ _ _ (Hwf _ Hin) Hdy) as (n_cp & Hn & Hs & Hlen).
    exists interp, n_cp, dy. rewrite <-Hn. split_and!; try done.
    by apply np_flatten_row_major.
  - intros -> out_name interp Hin.
    destruct (compute_partials_loop_inv _ _ _ _ Hnd Hrun) as [_ Hall].
    destruct (Hall _ Hin) as (cp_name & dy & Hcp & Hdy & Hp). cbn [fst snd] in *.
    destruct (assemble_shape _ _ _ _ _ _ (Hwf _ Hin) Hdy) as (n_cp & Hn & Hs & Hlen).
    exists cp_name, n_cp, dy. rewrite <-Hn. split_and!; try done.
    by apply np_flatten_row_major.
Qed.

End assembly.

Lemma assembled_blocks_identical_witness :
  ∃ dy, assemble_dy_ddata 3 2 (Some 3) [5; 15]%Z
          (toy_interp (Some (Sparse 2 3 [1; 2; 3; 4; 5; 6]%Z)))
        = Ret dy ∧
        length (data dy) = 3 * 2 * 3 ∧
        np_block dy 2 = mk_ndarray [2; 3] [1; 2; 3; 4; 5; 6]%Z.
Proof.
  destruct (assembled_blocks_identical 3 2 3 [5; 15]%Z
              (toy_interp (Some (Sparse 2 3 [1; 2; 3; 4; 5; 6]%Z))))
    as [Hblocks Hsource].
  - simpl. lia.
  - reflexivity.
  - destruct Hsource as (dy & Hdy & Hblk).
    + split; reflexivity.
    + exists dy. split_and!; [exact Hdy| |].
      * by destruct (Hblocks dy Hdy) as (_ & Hlen & _).
      * apply Hblk. lia.
Defined.

Lemma compute_partials_flattening_witness :
  ∃ dy, (compute_partials (finalized 2 None) ∅).2 !! ("y", "ycp") = Some (np_flatten dy) ∧
        shape (np_flatten dy) = [2 * 2 * 3] ∧
        np_reshape (np_flatten dy) [2; 2; 3] = Ret dy.
Proof.
  destruct (compute_partials_flattening (finalized 2 None) ∅
              (compute_partials (finalized 2 None) ∅).2
              (compute_partials (finalized 2 None) ∅).1) as [_ Hall].
  - apply (bool_decide_unpack _). vm_compute. exact I.
  - intros item ->%list_elem_of_singleton k v [= <-]. reflexivity.
  - vm_compute. reflexivity.
  - destruct (Hall eq_refl "y" (toy_interp None))
      as (cp_name & n_cp & dy & Hcp & Hn & _ & Hp & Hflat).
    + apply list_elem_of_singleton. reflexivity.
    + assert (cp_name = "ycp") as -> by (vm_compute in Hcp; congruence).
      assert (n_cp = 3) as -> by (vm_compute in Hn; congruence).
      destruct Hflat as (_ & Hs & _ & Hr & _).
      exists dy. split_and!; assumption.
Defined.



(** * Further properties of the component *)

(** ** More on the sparsity pattern *)

(** X1.  The pattern in closed form: entry [i] is in row [i / n_cp]; its column
    is the batch offset [(i / (n_interp * n_cp)) * n_cp] plus
    [i mod n_cp]. *)
Theorem sparsity_closed_form B n_interp n_cp rows cols i :
  sparsity_rows B n_interp n_cp = Ret rows →
  sparsity_cols B n_interp n_cp = Ret cols →
  i < B * n_interp * n_cp →
  rows !! i = Some (i / n_cp) ∧
  cols !! i = Some (i / (n_interp * n_cp) * n_cp + i `mod` n_cp).
Proof.
  intros Hr Hc Hi.
  destruct (pattern_position _ _ _ _ Hi) as (b & k & j & Hb & Hk & Hj & ->).
  rewrite (sparsity_rows_lookup _ _ _ _ _ _ _ Hr Hb Hk Hj).
  rewrite (sparsity_cols_lookup _ _ _ _ _ _ _ Hc Hb Hk Hj).
  replace (b * (n_interp * n_cp) + k * n_cp + j)
    with ((b * n_interp + k) * n_cp + j) by lia.
  rewrite div_block, mod_block by done.
  replace ((b * n_interp + k) * n_cp + j)
    with (b * (n_interp * n_cp) + (k * n_cp + j)) by lia.
  rewrite div_block by nia. done.
Qed.

Lemma sparsity_closed_form_witness :
  [0; 0; 0; 1; 1; 1; 2; 2; 2; 3; 3; 3] !! 7 = Some (7 / 3) ∧
  [0; 1; 2; 0; 1; 2; 3; 4; 5; 3; 4; 5] !! 7 = Some (7 / (2 * 3) * 3 + 7 `mod` 3).
Proof.
  apply (sparsity_closed_form 2 2 3).
  - vm_compute. reflexivity.
  - vm_compute. reflexivity.
  - lia.
Defined.

(** X2.  Every entry of the pattern lies inside the Jacobian of
    [B * n_interp] rows and [B * n_cp] columns, and no position of the
    Jacobian is declared twice. *)
Theorem sparsity_entries_distinct B n_interp n_cp rows cols :
  sparsity_rows B n_interp n_cp = Ret rows →
  sparsity_cols B n_interp n_cp = Ret cols →
  (∀ i r c, rows !! i = Some r → cols !! i = Some c →
            r < B * n_interp ∧ c < B * n_cp) ∧
  (∀ i i' r c, rows !! i = Some r → cols !! i = Some c →
               rows !! i' = Some r → cols !! i' = Some c → i = i').
Proof.
  intros Hr Hc.
  assert (∀ i r c, rows !! i = Some r → cols !! i = Some c →
            ∃ b k j, b < B ∧ k < n_interp ∧ j < n_cp ∧
                     i = b * (n_interp * n_cp) + k * n_cp + j ∧
                     r = b * n_interp + k ∧ c = b * n_cp + j) as Hpos.
  { intros i r c Hri Hci.
    pose proof (lookup_lt_Some _ _ _ Hri) as Hi.
    rewrite (sparsity_rows_length _ _ _ _ Hr) in Hi.
    destruct (pattern_position _ _ _ _ Hi) as (b & k & j & Hb & Hk & Hj & ->).
    rewrite (sparsity_rows_lookup _ _ _ _ _ _ _ Hr Hb Hk Hj) in Hri.
    rewrite (sparsity_cols_lookup _ _ _ _ _ _ _ Hc Hb Hk Hj) in Hci.
    simplify_eq. by exists b, k, j. }
  split.
  - intros i r c Hri Hci.
    destruct (Hpos i r c Hri Hci) as (b & k & j & Hb & Hk & Hj & _ & -> & ->).
    split; nia.
  - intros i i' r c Hri Hci Hri' Hci'.
    destruct (Hpos i r c Hri Hci) as (b & k & j & Hb & Hk & Hj & -> & Er & Ec).
    destruct (Hpos i' r c Hri' Hci')
      as (b' & k' & j' & Hb' & Hk' & Hj' & -> & Er' & Ec').
    assert (b = b').
    { rewrite <-(div_block b n_interp k), <-(div_block b' n_interp k') by done.
      congruence. }
    subst b'. assert (k = k') by lia. assert (j = j') by lia. by subst.
Qed.

Lemma sparsity_entries_distinct_witness :
  3 < 2 * 2 ∧ 4 < 2 * 3.
Proof.
  destruct (sparsity_entries_distinct 2 2 3
              [0; 0; 0; 1; 1; 1; 2; 2; 2; 3; 3; 3]
              [0; 1; 2; 0; 1; 2; 3; 4; 5; 3; 4; 5]) as [Hin _].
  - vm_compute. reflexivity.
  - vm_compute. reflexivity.
  - apply (Hin 10 3 4); reflexivity.
Defined.

(** ** The dict of engines *)

Section dict_facts.
Context {V : Type}.
Implicit Types d : list (string * V).

Lemma dict_set_keys k v d :
  (dict_set k v d).*1 = if decide (k ∈ d.*1) then d.*1 else d.*1 ++ [k].
Proof.
  induction d as [|[k' v'] d IH]; [done|]. cbn [dict_set].
  destruct (decide (k' = k)) as [->|Hne].
  - rewrite decide_True by (rewrite fmap_cons; apply elem_of_cons; by left). done.
  - rewrite !fmap_cons, IH. cbn [fst].
    destruct (decide (k ∈ d.*1)) as [Hin|Hnin].
    + rewrite decide_True by (apply elem_of_cons; by right). done.
    + rewrite decide_False; [done|]. intros [?|?]%elem_of_cons; congruence.
Qed.



Lemma dict_set_fresh_head k v v' d pre :
  k ∉ pre.*1 → dict_set k v (pre ++ (k, v') :: d) = pre ++ (k, v) :: d.
Proof.
  induction pre as [|[k0 v0] pre IH]; intros Hk.
  - cbn [app dict_set]. by rewrite decide_True.
  - rewrite fmap_cons, not_elem_of_cons in Hk. destruct Hk as [Hne Hk].
    cbn [app dict_set]. cbn [fst] in Hne. rewrite decide_False by done.
    by rewrite IH.
Qed.
Lemma dict_set_elem_of_new k v d : (k, v) ∈ dict_set k v d.
Proof.
  induction d as [|[k' v'] d IH]; cbn [dict_set]; [by left|].
  case_decide; [by left|by right].
Qed.

Lemma dict_set_elem_of_other k v d k' v' :
  k' ≠ k → (k', v') ∈ d → (k', v') ∈ dict_set k v d.
Proof.
  intros Hne. induction d as [|[k0 v0] d IH]; [by intros ?%elem_of_nil|].
  cbn [dict_set]. intros [Heq|Hin]%elem_of_cons.
  - injection Heq as <- <-. rewrite decide_False by done. by left.
  - case_decide; right; auto.
Qed.
End dict_facts.

Lemma accepted_method_not_scipy {T O} (o : Options T O) :
  method_accepted o → String.prefix "scipy" (method o) = false.
Proof.
  unfold method_accepted, ALL_METHODS. rewrite !elem_of_cons.
  intros [->|[->|[->|[->|[->|[->|Hm]]]]]]; try reflexivity.
  by apply elem_of_nil in Hm.
Qed.

Lemma bind_join_fmap {A B} (f : A → list B) (l : list A) :
  l ≫= f = mjoin (f <$> l).
Proof. induction l as [|x l IH]; [done|]. csimpl. by rewrite IH. Qed.

Section setup_more.
Context {T : Type} `{!Float64 T} `{!Engine T} `{!Host T}.
Local Abbreviation Comp := (SplineComp T Core Opts).

(** X3.  The calls of a completed [setup], in order: for every registered
    spline, in registration order, its output, its input and its partials,
    and nothing else. *)
Theorem setup_call_sequence (c c' : Comp) :
  method_accepted (options c) →
  setup c = (Ret tt, c') →
  let B := vec_size (options c) in
  let n_interp := length (x_interp_val (options c)) in
  ∃ n_cp chunks,
    _n_cp c' = Some n_cp ∧
    host_calls c' = host_calls c ++ mjoin chunks ∧
    Forall2
      (λ sp calls,
         ∃ v rows cols,
           default_y_cp_val B n_cp (y_cp_val sp) = Ret v ∧
           dense_block_pattern B n_interp n_cp rows cols ∧
           calls =
             [add_output (y_interp_name sp) (np_ones [B; n_interp]) (y_units sp);
              add_input (y_cp_name sp) v;
              declare_partials (y_interp_name sp) (y_cp_name sp) rows cols])
      (_spline_cache c) chunks.
Proof.
  intros Hm Hs B n_interp. apply setup_inv in Hs. cbv zeta in Hs.
  fold B n_interp in Hs.
  destruct (resolve_grid _ _) as [[g n_cp]|e]; [|by destruct Hs].
  destruct Hs as (Hn & Ho & new & Hc & Hp & Hok).
  destruct (Hok eq_refl) as [-> Hall].
  rewrite (accepted_method_not_scipy _ Hm), app_nil_r in Hc.
  exists n_cp, (spline_calls B n_interp n_cp <$> _spline_cache c).
  split_and!; [done|by rewrite <-bind_join_fmap|].
  apply Forall2_fmap_r, Forall_Forall2_diag, Forall_forall.
  intros sp Hsp. destruct (Hall sp Hsp) as [v Hv].
  destruct (spline_calls_complete B n_interp n_cp sp v Hv)
    as (rows & cols & Hcalls & Hpat).
  by exists v, rows, cols.
Qed.

(** X4.  Without a registered spline, a valid configuration makes [setup] store
    the number of control points and do nothing else: no call reaches the
    host. *)
Theorem setup_without_splines (c : Comp) g n_cp :
  _spline_cache c = [] →
  method_accepted (options c) →
  resolve_grid (msginfo c) (options c) = Ret (g, n_cp) →
  setup c = (Ret tt, set_n_cp (Some n_cp) c).
Proof.
  intros Hc Hm Hg. unfold setup, m_bind, m_get, m_lift, m_modify.
  rewrite Hg. cbn [fst snd]. rewrite Hc. cbn [m_for m_ret].
  cbn [set_n_cp options]. by rewrite (accepted_method_not_scipy _ Hm).
Qed.

(** X5.  Default control values given as a Python list, which the docstring of
    [add_spline] allows, make [setup] raise an [AttributeError]: the list
    has no [shape].  By then the output of that spline is declared, and
    nothing else is. *)
Theorem setup_list_default_raises (c : Comp) g n_cp sp rest l :
  _spline_cache c = sp :: rest →
  y_cp_val sp = Some (CpList l) →
  resolve_grid (msginfo c) (options c) = Ret (g, n_cp) →
  let out :=
    add_output (y_interp_name sp)
      (np_ones [vec_size (options c); length (x_interp_val (options c))])
      (y_units sp) in
  host_refuses (host_calls c) out = None →
  ∃ msg,
    setup c =
      (Raise (AttributeError msg),
       set_host_calls (λ calls, calls ++ [out]) (set_n_cp (Some n_cp) c)).
Proof.
  intros Hc Hl Hg out Hh. unfold setup, m_bind at 1, m_get.
  unfold m_bind at 1, m_lift. rewrite Hg.
  unfold m_bind at 1, m_modify. cbn [fst snd]. rewrite Hc. cbn [m_for].
  unfold m_bind at 1, m_bind at 1.
  unfold setup_spline, m_bind at 1, m_get. unfold m_bind at 1, call_host.
  cbn [set_n_cp host_calls options]. fold out. rewrite Hh.
  unfold m_bind at 1, m_lift. rewrite Hl. cbn [default_y_cp_val].
  by eexists.
Qed.






End setup_more.

Lemma setup_call_sequence_witness :
  ∃ chunks, host_calls (setup scenario_B).2 = host_calls scenario_B ++ mjoin chunks ∧
            length chunks = 1.
Proof.
  destruct (setup_call_sequence scenario_B (setup scenario_B).2)
    as (n_cp & chunks & _ & Hc & Hf).
  - unfold method_accepted, ALL_METHODS. vm_compute. do 4 right. left.
  - vm_compute. reflexivity.
  - exists chunks. split; [exact Hc|].
    apply Forall2_length in Hf. rewrite <-Hf. reflexivity.
Defined.

Lemma setup_without_splines_witness :
  setup no_spline = (Ret tt, set_n_cp (Some 3) no_spline).
Proof.
  apply (setup_without_splines no_spline (GridRange [0; 1; 2]) 3).
  - reflexivity.
  - unfold method_accepted, ALL_METHODS. vm_compute. do 4 right. left.
  - reflexivity.
Defined.

Lemma setup_list_default_raises_witness :
  ∃ msg c', setup scenario_list = (Raise (AttributeError msg), c') ∧
            length (host_calls c') = 1.
Proof.
  destruct (setup_list_default_raises scenario_list (GridRange [0; 1; 2]) 3
              (mk_spline_args "ycp" "y" (Some (CpList [1; 2; 4]%Z)) None) []
              [1; 2; 4]%Z) as [msg Hs].
  - reflexivity.
  - reflexivity.
  - reflexivity.
  - reflexivity.
  - exists msg. eexists. split; [exact Hs|]. reflexivity.
Defined.


(** ** More on evaluation *)

Section compute_more.
Context {T : Type} `{!Float64 T} `{!Engine T} `{!Host T}.
Local Abbreviation Interp := (InterpND T Core).

Lemma compute_spline_frame inputs item (st st' : compute_state) r :
  compute_spline inputs item st = (r, st') →
  options (self st') = options (self st) ∧
  msginfo (self st') = msginfo (self st) ∧
  interp_to_cp (self st') = interp_to_cp (self st) ∧
  _spline_cache (self st') = _spline_cache (self st) ∧
  _n_cp (self st') = _n_cp (self st) ∧
  host_calls (self st') = host_calls (self st) ∧
  (interps (self st') = interps (self st) ∨
   ∃ it, interps (self st') = dict_set item.1 it (interps (self st))).
Proof.
  unfold compute_spline, m_bind, m_get, m_lift, m_modify, m_raise.
  destruct (dict_get _ _ _) as [cp_name|e]; [|intros [= <- <-]; split_and!; auto].
  destruct (dict_get _ _ _) as [values|e]; [|intros [= <- <-]; split_and!; auto].
  cbn [self fst snd]. destruct (evaluate_spline _ _) as [[v|e] interp2]; cbn [fst snd].
  - intros [= <- <-]. split_and!; eauto.
  - destruct e; intros [= <- <-]; split_and!; eauto.
Qed.

Lemma compute_loop_frame inputs l (st st' : compute_state) r :
  (∀ item, item ∈ l → item.1 ∈ (interps (self st)).*1) →
  m_for l (compute_spline inputs) st = (r, st') →
  options (self st') = options (self st) ∧
  msginfo (self st') = msginfo (self st) ∧
  interp_to_cp (self st') = interp_to_cp (self st) ∧
  _spline_cache (self st') = _spline_cache (self st) ∧
  _n_cp (self st') = _n_cp (self st) ∧
  host_calls (self st') = host_calls (self st) ∧
  (interps (self st')).*1 = (interps (self st)).*1.
Proof.
  revert st. induction l as [|item l IH]; intros st Hl; cbn [m_for].
  { intros [= <- <-]. done. }
  unfold m_bind at 1.
  destruct (compute_spline inputs item st) as [r1 st1] eqn:E1.
  apply compute_spline_frame in E1 as (Ho & Hm & Hi & Hs & Hn & Hh & Hk).
  assert ((interps (self st1)).*1 = (interps (self st)).*1) as Hkeys.
  { destruct Hk as [->|[it ->]]; [done|]. rewrite dict_set_keys.
    rewrite decide_True; [done|]. apply Hl. by left. }
  destruct r1 as [[]|e].
  - intros (Ho' & Hm' & Hi' & Hs' & Hn' & Hh' & Hk')%IH.
    + split_and!; congruence.
    + intros item' Hin. rewrite Hkeys. apply Hl. by right.
  - intros [= <- <-]. done.
Qed.

(** X10.  [compute] changes nothing of what [setup] fixed: the options, the
    names, the number of control points, the calls made to the host and
    the names of the engines are the same afterwards, however it ends. *)
Theorem compute_keeps_configuration inputs (st st' : compute_state) r :
  compute inputs st = (r, st') →
  options (self st') = options (self st) ∧
  msginfo (self st') = msginfo (self st) ∧
  interp_to_cp (self st') = interp_to_cp (self st) ∧
  _spline_cache (self st') = _spline_cache (self st) ∧
  _n_cp (self st') = _n_cp (self st) ∧
  host_calls (self st') = host_calls (self st) ∧
  (interps (self st')).*1 = (interps (self st)).*1.
Proof.
  unfold compute, m_bind, m_get. apply compute_loop_frame.
  intros item Hin. apply list_elem_of_fmap. by exists item.
Qed.

(** [compute] up to the spline at which it stops or goes on. *)
Lemma compute_at inputs (st st1 : compute_state) pre item post :
  interps (self st) = pre ++ item :: post →
  m_for pre (compute_spline inputs) st = (Ret tt, st1) →
  compute inputs st =
    match compute_spline inputs item st1 with
    | (Ret _, st2) => m_for post (compute_spline inputs) st2
    | (Raise e, st2) => (Raise e, st2)
    end.
Proof.
  intros Hl Hpre. unfold compute, m_bind at 1, m_get.
  rewrite Hl, m_for_app, Hpre. cbn [m_for]. unfold m_bind at 1.
  by destruct (compute_spline inputs item st1) as [[[]|e] st2].
Qed.

(** X11.  Only a [ValueError] of the engine is wrapped: a [TypeError],
    [AttributeError], [IndexError] or [KeyError] of [evaluate_spline]
    leaves [compute] as it is, and as for a [ValueError] nothing is
    written for that output or the later ones. *)
Theorem compute_passes_other_errors inputs (st st1 : compute_state)
    pre out_name interp post cp_name values e :
  interps (self st) = pre ++ (out_name, interp) :: post →
  m_for pre (compute_spline inputs) st = (Ret tt, st1) →
  interp_to_cp (self st) !! out_name = Some cp_name →
  inputs !! cp_name = Some values →
  (evaluate_spline (with_flags (x_interp_val (options (self st))) interp) values).1
    = Raise e →
  outside_ValueError e →
  ∃ st2,
    compute inputs st = (Raise e, st2) ∧
    outputs st2 = outputs st1 ∧
    evaluated st2 = evaluated st ++ pre.*1 ++ [out_name].
Proof.
  intros Hl Hpre Hcp Hin Hev Hne.
  destruct (compute_loop_inv _ _ _ _ _ Hpre) as (Ho & Hm & Hi & He).
  specialize (He eq_refl).
  rewrite (compute_at _ _ _ _ _ _ Hl Hpre).
  unfold compute_spline, m_bind, m_get, m_lift, m_modify, m_raise, dict_get.
  cbn [fst snd]. rewrite Hi, Hcp, Hin, Ho.
  unfold with_flags in Hev.
  destruct (evaluate_spline _ _) as [r interp2]. cbn [fst snd] in *. subst r.
  destruct e as [msg| | | | |]; try done;
    (eexists; split_and!; [reflexivity|done|]; cbn [evaluated];
     by rewrite He, <-app_assoc).
Qed.

(** X12.  A control-point input that is missing stops [compute] with a
    [KeyError] naming it, before the engine of that output is touched:
    the object and the outputs are as the earlier splines left them. *)
Theorem compute_missing_input inputs (st st1 : compute_state)
    pre out_name interp post cp_name :
  interps (self st) = pre ++ (out_name, interp) :: post →
  m_for pre (compute_spline inputs) st = (Ret tt, st1) →
  interp_to_cp (self st) !! out_name = Some cp_name →
  inputs !! cp_name = None →
  compute inputs st = (Raise (KeyError cp_name), st1).
Proof.
  intros Hl Hpre Hcp Hin.
  destruct (compute_loop_inv _ _ _ _ _ Hpre) as (_ & _ & Hi & _).
  rewrite (compute_at _ _ _ _ _ _ Hl Hpre).
  unfold compute_spline, m_bind, m_get, m_lift, dict_get.
  cbn [fst snd]. by rewrite Hi, Hcp, Hin.
Qed.

(** What a completed iteration of [compute] does. *)
Lemma compute_spline_ok inputs item (st st' : compute_state) :
  compute_spline inputs item st = (Ret tt, st') →
  ∃ cp_name values v,
    interp_to_cp (self st) !! item.1 = Some cp_name ∧
    inputs !! cp_name = Some values ∧
    let r := evaluate_spline (with_flags (x_interp_val (options (self st))) item.2)
               values in
    r.1 = Ret v ∧
    interps (self st') = dict_set item.1 r.2 (interps (self st)) ∧
    outputs st' = <[item.1 := v]> (outputs st).
Proof.
  unfold compute_spline, m_bind, m_get, m_lift, m_modify, m_raise, dict_get.
  destruct (interp_to_cp (self st) !! item.1) as [cp_name|]; [|done].
  destruct (inputs !! cp_name) as [values|] eqn:Hin; [|done].
  cbn [self fst snd outputs].
  destruct (evaluate_spline _ values) as [[v|e] interp2] eqn:Hev; cbn [fst snd].
  - intros [= <-]. exists cp_name, values, v. unfold with_flags.
    rewrite Hev. done.
  - by destruct e.
Qed.

Lemma compute_loop_ok inputs l done_ (st st' : compute_state) :
  interps (self st) = done_ ++ l →
  NoDup (done_ ++ l).*1 →
  m_for l (compute_spline inputs) st = (Ret tt, st') →
  ∃ l',
    interps (self st') = done_ ++ l' ∧
    (∀ name, name ∉ l.*1 → outputs st' !! name = outputs st !! name) ∧
    Forall2
      (λ item item',
         ∃ cp_name values v,
           interp_to_cp (self st) !! item.1 = Some cp_name ∧
           inputs !! cp_name = Some values ∧
           let r := evaluate_spline
                      (with_flags (x_interp_val (options (self st))) item.2)
                      values in
           r.1 = Ret v ∧ item' = (item.1, r.2) ∧
           outputs st' !! item.1 = Some v)
      l l'.
Proof.
  revert done_ st. induction l as [|item l IH]; intros done_ st Hi Hnd; cbn [m_for].
  { intros [= <-]. exists []. split_and!; [done|done|constructor]. }
  unfold m_bind at 1.
  destruct (compute_spline inputs item st) as [r1 st1] eqn:E1.
  destruct r1 as [[]|e]; [|done].
  pose proof (compute_spline_frame _ _ _ _ _ E1) as (Ho & _ & Hcp & _).
  apply compute_spline_ok in E1
    as (cp_name & values & v & Hcpn & Hin & Hv & Hi1 & Hout).
  cbv zeta in Hv, Hi1. destruct item as [name interp]. cbn [fst snd] in *.
  rewrite fmap_app, fmap_cons in Hnd. cbn [fst] in Hnd.
  assert (name ∉ fst <$> done_) as Hn1; [|assert (name ∉ fst <$> l) as Hn2].
  { apply NoDup_app in Hnd as (_ & Hdisj & _).
    intros Hin'. apply (Hdisj _ Hin'). by left. }
  { apply NoDup_app in Hnd as (_ & _ & Hnd2).
    by apply NoDup_cons in Hnd2 as [? _]. }
  rewrite Hi in Hi1. rewrite dict_set_fresh_head in Hi1 by done.
  intros Hrest.
  destruct (IH (done_ ++ [(name, (evaluate_spline
              (with_flags (x_interp_val (options (self st))) interp) values).2)])
              st1) as (l' & Hi' & Hkeep & Hall).
  { by rewrite Hi1, <-app_assoc. }
  { rewrite <-app_assoc. cbn [app]. by rewrite fmap_app, fmap_cons. }
  { done. }
  eexists (_ :: l'). split_and!.
  - by rewrite Hi', <-app_assoc.
  - intros name' Hnot. rewrite fmap_cons, not_elem_of_cons in Hnot.
    destruct Hnot as [Hne Hnot]. cbn [fst] in Hne.
    rewrite Hkeep, Hout by done. by rewrite lookup_insert_ne.
  - constructor.
    + exists cp_name, values, v. cbn [fst snd]. split_and!; try done.
      rewrite Hkeep, Hout by done. apply lookup_insert_eq.
    + eapply Forall2_impl; [exact Hall|].
      intros it it' (cp' & vals' & v' & ? & ? & ? & ? & ?).
      exists cp', vals', v'. rewrite <-Ho, <-Hcp. done.
Qed.

(** X13.  A completed [compute] has evaluated every engine on the control
    values of its spline, with the flags set and the query locations of
    the options; the result is the value of the output, and the engine as
    the evaluation left it, with the derivatives of this evaluation, is
    the one kept for [compute_partials]. *)
Theorem compute_writes_outputs inputs (st st' : compute_state) :
  NoDup (interps (self st)).*1 →
  compute inputs st = (Ret tt, st') →
  Forall2
    (λ item item',
       ∃ cp_name values v,
         interp_to_cp (self st) !! item.1 = Some cp_name ∧
         inputs !! cp_name = Some values ∧
         let r := evaluate_spline
                    (with_flags (x_interp_val (options (self st))) item.2)
                    values in
         r.1 = Ret v ∧ item' = (item.1, r.2) ∧
         outputs st' !! item.1 = Some v)
    (interps (self st)) (interps (self st')).
Proof.
  intros Hnd. unfold compute, m_bind, m_get. intros Hrun.
  destruct (compute_loop_ok inputs (interps (self st)) [] st st')
    as (l' & -> & _ & Hall); done.
Qed.
End compute_more.

Lemma compute_keeps_configuration_witness :
  (interps (self (compute scenario_E_inputs scenario_E).2)).*1 = ["y"] ∧
  _n_cp (self (compute scenario_E_inputs scenario_E).2) = Some 3.
Proof.
  destruct (compute_keeps_configuration scenario_E_inputs scenario_E
              (compute scenario_E_inputs scenario_E).2
              (compute scenario_E_inputs scenario_E).1)
    as (_ & _ & _ & _ & Hn & _ & Hk).
  - vm_compute. reflexivity.
  - split; [rewrite Hk|rewrite Hn]; vm_compute; reflexivity.
Defined.

Lemma compute_passes_other_errors_witness :
  ∃ st2, compute scenario_B_inputs failing_state =
           (Raise (TypeError "unsupported operand"), st2) ∧
         outputs st2 = ∅.
Proof.
  destruct (compute_passes_other_errors (Engine0 := failing_engine)
              scenario_B_inputs failing_state failing_state
              [] "y" (mk_InterpND false false [5; 15]%Z None 3) [] "ycp"
              (mk_ndarray [2; 3] [1; 2; 4; 5; 6; 7]%Z)
              (TypeError "unsupported operand"))
    as (st2 & Hc & Ho & _).
  - reflexivity.
  - reflexivity.
  - vm_compute. reflexivity.
  - vm_compute. reflexivity.
  - reflexivity.
  - exact I.
  - exists st2. split; assumption.
Defined.

Lemma compute_missing_input_witness :
  compute ∅ scenario_E = (Raise (KeyError "ycp"), scenario_E).
Proof.
  apply (compute_missing_input ∅ scenario_E scenario_E [] "y"
           (mk_InterpND false false [5; 15]%Z None 3) []).
  - vm_compute. reflexivity.
  - reflexivity.
  - vm_compute. reflexivity.
  - reflexivity.
Defined.

Lemma compute_writes_outputs_witness :
  length (interps (self scenario_E)) =
  length (interps (self (compute scenario_B_inputs scenario_E).2)).
Proof.
  eapply Forall2_length.
  apply (compute_writes_outputs scenario_B_inputs scenario_E
           (compute scenario_B_inputs scenario_E).2).
  - apply (bool_decide_unpack _). vm_compute. exact I.
  - vm_compute. reflexivity.
Defined.

(** ** More on derivative assembly *)

Section assembly_more.
Context {T : Type} `{!Float64 T} `{!Engine T} `{!Host T}.
Local Abbreviation Comp := (SplineComp T Core Opts).
Local Abbreviation Interp := (InterpND T Core).

Lemma compute_partials_spline_from (c : Comp) out_name (interp : Interp) cp_name
    partials dy :
  interp_to_cp c !! out_name = Some cp_name →
  assemble_dy_ddata (vec_size (options c)) (length (x_interp_val (options c)))
    (_n_cp c) (x_interp_val (options c)) interp = Ret dy →
  compute_partials_spline c (out_name, interp) partials =
    (Ret tt, <[(out_name, cp_name) := np_flatten dy]> partials).
Proof.
  intros Hcp Ha.
  unfold compute_partials_spline, m_bind, m_lift, m_modify, dict_get.
  cbn [fst snd]. by rewrite Hcp, Ha.
Qed.

(** X14.  A dense derivative of the expected shape [(B, n_interp, n_cp)] is used
    as it is: the value written is its flattening. *)
Theorem partials_dense_used_directly (c : Comp) out_name (interp : Interp)
    a cp_name n_cp partials :
  _d_dvalues interp = Some (Dense a) →
  _n_cp c = Some n_cp →
  shape a = [vec_size (options c); length (x_interp_val (options c)); n_cp] →
  wf_ndarray a →
  interp_to_cp c !! out_name = Some cp_name →
  compute_partials_spline c (out_name, interp) partials =
    (Ret tt, <[(out_name, cp_name) := np_flatten a]> partials).
Proof.
  intros Hd Hn Hs Hwf Hcp. apply compute_partials_spline_from; [done|].
  unfold assemble_dy_ddata. rewrite Hd, Hn.
  cbn [from_option res_bind deriv_shape]. rewrite Hs. cbn [shape0 res_bind].
  destruct (decide (vec_size (options c) = vec_size (options c))) as [_|?];
    [|done].
  by apply np_setall_same_shape.
Qed.

(** X15.  A sparse derivative of [n_interp] rows and [n_cp] columns, for a batch
    size other than [n_interp], is written [B] times over: the value is
    its dense content, once per batch element. *)
Theorem partials_sparse_tiled (c : Comp) out_name (interp : Interp)
    content cp_name n_cp partials :
  let B := vec_size (options c) in
  let n_interp := length (x_interp_val (options c)) in
  _d_dvalues interp = Some (Sparse n_interp n_cp content) →
  _n_cp c = Some n_cp →
  n_interp ≠ B →
  length content = n_interp * n_cp →
  interp_to_cp c !! out_name = Some cp_name →
  compute_partials_spline c (out_name, interp) partials =
    (Ret tt,
     <[(out_name, cp_name) :=
         np_flatten (mk_ndarray [B; n_interp; n_cp] (np_tile content B))]> partials).
Proof.
  intros B n_interp Hd Hn Hne Hlen Hcp.
  apply compute_partials_spline_from; [done|]. fold B n_interp.
  assert (engine_output_wf (x_interp_val (options c)) interp) as Hwf.
  { unfold engine_output_wf. by rewrite Hd. }
  destruct (assemble_total B n_interp n_cp (x_interp_val (options c)) interp)
    as [dy Hdy]; [by rewrite Hd|done|by unfold expected_source; rewrite Hd|].
  rewrite Hn, Hdy. f_equal.
  revert Hdy. unfold assemble_dy_ddata. rewrite Hd.
  cbn [from_option res_bind deriv_shape shape0].
  rewrite decide_False by done. cbn [deriv_toarray res_bind].
  destruct (np_broadcast_to _ _) as [b|e] eqn:Eb; [|done]. cbn [res_bind].
  apply np_broadcast_to_new_axis with (r := n_interp) (c := n_cp) in Eb
    as (_ & -> & Hl); [|done|by unfold wf_ndarray; cbn [shape data]; rewrite size_of_2].
  cbn [data] in *. rewrite bcast_id in * by (by rewrite size_of_2).
  rewrite np_setall_same_shape; [by intros <-%Ret_inj| |done].
  unfold wf_ndarray. cbn [data shape]. rewrite length_np_tile, Hlen, size_of_3. lia.
Qed.

(** X16.  A sparse derivative whose number of rows equals the batch size is
    taken for a batch of derivatives: the iteration raises and nothing is
    written.  This is what happens to a sparse [(n_interp, n_cp)] matrix
    when [n_interp = vec_size]. *)
Theorem partials_sparse_rows_equal_batch (c : Comp) out_name (interp : Interp)
    ncols content n_cp partials :
  _d_dvalues interp = Some (Sparse (vec_size (options c)) ncols content) →
  _n_cp c = Some n_cp →
  ∃ e, compute_partials_spline c (out_name, interp) partials = (Raise e, partials).
Proof.
  intros Hd Hn.
  unfold compute_partials_spline, m_bind, m_lift, m_modify, dict_get.
  cbn [fst snd].
  destruct (interp_to_cp c !! out_name) as [cp_name|]; [|by eexists].
  unfold assemble_dy_ddata. rewrite Hd, Hn.
  cbn [from_option res_bind deriv_shape shape0].
  destruct (decide (vec_size (options c) = vec_size (options c))) as [_|?];
    [|done].
  by eexists.
Qed.

(** X17.  Without a derivative cache the value written is assembled from the
    gradients the engine returns at the query points, one row of [n_cp]
    elements per point in the order of the points, and that block is
    repeated for every batch element. *)
Theorem partials_from_gradients (c : Comp) out_name (interp : Interp)
    gs cp_name n_cp partials :
  let B := vec_size (options c) in
  let x := x_interp_val (options c) in
  _d_dvalues interp = None →
  _n_cp c = Some n_cp →
  length gs = length x →
  (∀ k v, gs !! k = Some v →
          training_gradients interp (slice1 x k) = Ret v ∧
          shape v = [n_cp] ∧ wf_ndarray v) →
  interp_to_cp c !! out_name = Some cp_name →
  compute_partials_spline c (out_name, interp) partials =
    (Ret tt,
     <[(out_name, cp_name) :=
         np_flatten (mk_ndarray [B; length x; n_cp]
                       (np_tile (mjoin (data <$> gs)) B))]> partials).
Proof.
  intros B x Hd Hn Hlen Hg Hcp.
  apply compute_partials_spline_from; [done|]. fold B x.
  unfold assemble_dy_ddata. rewrite Hd, Hn. cbn [from_option res_bind].
  rewrite <-Hlen.
  rewrite (gradient_rows_value interp x (length gs) n_cp gs 0
             (np_zeros [length gs; n_cp]) []
             (data (np_zeros [length gs; n_cp]))).
  - cbn [res_bind app].
    assert (length (mjoin (data <$> gs)) = length gs * n_cp) as Hl.
    { rewrite (length_join_same _ n_cp); [by rewrite length_fmap|].
      apply Forall_fmap, Forall_lookup. intros k v Hk.
      destruct (Hg k v Hk) as (_ & Hs & Hw). unfold wf_ndarray in Hw.
      rewrite Hs in Hw. unfold size_of in Hw. simpl in *. lia. }
    unfold np_broadcast_to, ndim, pad_shape.
    cbn [shape length Nat.sub replicate app data].
    rewrite decide_True by lia.
    assert (bcast_ok [1; length gs; n_cp] [B; length gs; n_cp] = true) as ->.
    { cbn [bcast_ok].
      rewrite !andb_true_iff, !orb_true_iff, !bool_decide_eq_true.
      split_and!; auto. }
    rewrite bcast_leading_one by (by rewrite size_of_2).
    rewrite bcast_id by (by rewrite size_of_2). done.
  - intros i v Hi. by apply Hg.
  - lia.
  - done.
  - done.
  - done.
  - cbn. rewrite length_replicate. unfold size_of. simpl. lia.
Qed.

(** X18.  [compute_partials] writes nothing but the partials of the outputs in
    [interps] with respect to their own control points, however it
    ends. *)
Theorem compute_partials_writes_own_pairs (c : Comp) partials partials' r key :
  compute_partials c partials = (r, partials') →
  partials' !! key ≠ partials !! key →
  key.1 ∈ (interps c).*1 ∧ interp_to_cp c !! key.1 = Some key.2.
Proof.
  unfold compute_partials. generalize (interps c) as l. intros l.
  revert partials. induction l as [|item l IH]; intros partials; cbn [m_for].
  { by intros [= <- <-]. }
  unfold m_bind at 1.
  destruct (compute_partials_spline c item partials) as [r1 p1] eqn:E1.
  intros Hrest Hne.
  apply compute_partials_spline_inv in E1 as [_ Hr].
  destruct r1 as [[]|e].
  - destruct Hr as (cp_name & dy & Hcp & _ & ->).
    destruct (decide (key = (item.1, cp_name))) as [->|Hk].
    + split; [|done]. rewrite fmap_cons. apply elem_of_cons. by left.
    + destruct (IH _ Hrest) as [Hin Hcp'].
      { by rewrite lookup_insert_ne. }
      split; [|done]. rewrite fmap_cons. apply elem_of_cons. by right.
  - subst p1. injection Hrest as <- <-. done.
Qed.
End assembly_more.

Lemma partials_dense_used_directly_witness :
  compute_partials_spline
    (finalized 1 (Some (Dense (mk_ndarray [1; 2; 3] [1; 2; 3; 4; 5; 6]%Z))))
    ("y", toy_interp (Some (Dense (mk_ndarray [1; 2; 3] [1; 2; 3; 4; 5; 6]%Z)))) ∅ =
  (Ret tt, <[("y", "ycp") := mk_ndarray [6] [1; 2; 3; 4; 5; 6]%Z]> ∅).
Proof.
  apply (partials_dense_used_directly
           (finalized 1 (Some (Dense (mk_ndarray [1; 2; 3] [1; 2; 3; 4; 5; 6]%Z))))
           "y" _ (mk_ndarray [1; 2; 3] [1; 2; 3; 4; 5; 6]%Z) "ycp" 3 ∅);
    reflexivity.
Defined.

Lemma partials_sparse_tiled_witness :
  compute_partials_spline
    (finalized 3 (Some (Sparse 2 3 [1; 2; 3; 4; 5; 6]%Z)))
    ("y", toy_interp (Some (Sparse 2 3 [1; 2; 3; 4; 5; 6]%Z))) ∅ =
  (Ret tt,
   <[("y", "ycp") :=
       np_flatten (mk_ndarray [3; 2; 3] (np_tile [1; 2; 3; 4; 5; 6]%Z 3))]> ∅).
Proof.
  apply (partials_sparse_tiled
           (finalized 3 (Some (Sparse 2 3 [1; 2; 3; 4; 5; 6]%Z)))
           "y" _ [1; 2; 3; 4; 5; 6]%Z "ycp" 3 ∅).
  - reflexivity.
  - reflexivity.
  - simpl. lia.
  - reflexivity.
  - reflexivity.
Defined.

Lemma partials_sparse_rows_equal_batch_witness :
  ∃ e, compute_partials_spline
         (finalized 2 (Some (Sparse 2 3 [1; 2; 3; 4; 5; 6]%Z)))
         ("y", toy_interp (Some (Sparse 2 3 [1; 2; 3; 4; 5; 6]%Z))) ∅ = (Raise e, ∅).
Proof.
  apply (partials_sparse_rows_equal_batch
           (finalized 2 (Some (Sparse 2 3 [1; 2; 3; 4; 5; 6]%Z)))
           "y" _ 3 [1; 2; 3; 4; 5; 6]%Z 3 ∅); reflexivity.
Defined.

Lemma partials_from_gradients_witness :
  compute_partials_spline (finalized 2 None) ("y", toy_interp None) ∅ =
  (Ret tt,
   <[("y", "ycp") :=
       mk_ndarray [12] [5; 5; 5; 15; 15; 15; 5; 5; 5; 15; 15; 15]%Z]> ∅).
Proof.
  apply (partials_from_gradients (finalized 2 None) "y" (toy_interp None)
           [mk_ndarray [3] [5; 5; 5]%Z; mk_ndarray [3] [15; 15; 15]%Z] "ycp" 3 ∅).
  - reflexivity.
  - reflexivity.
  - reflexivity.
  - intros [|[|k]] v Hk; [| |discriminate]; injection Hk as <-;
      split_and!; reflexivity.
  - reflexivity.
Defined.

Lemma compute_partials_writes_own_pairs_witness :
  "y" ∈ (interps (finalized 2 None)).*1 ∧
  interp_to_cp (finalized 2 None) !! "y" = Some "ycp".
Proof.
  apply (compute_partials_writes_own_pairs (finalized 2 None) ∅
           (compute_partials (finalized 2 None) ∅).2
           (compute_partials (finalized 2 None) ∅).1 ("y", "ycp")).
  - vm_compute. reflexivity.
  - vm_compute. discriminate.
Defined.

(** ** The engines bound by [setup], and two edge configurations *)

Section setup_engines.
Context {T : Type} `{!Float64 T} `{!Engine T} `{!Host T}.
Local Abbreviation Comp := (SplineComp T Core Opts).

Lemma setup_spline_ok g n_cp opts B n_interp sp (c c' : Comp) :
  setup_spline g n_cp opts B n_interp sp c = (Ret tt, c') →
  ∃ v row it,
    default_y_cp_val B n_cp (y_cp_val sp) = Ret v ∧
    np_first_row v = Ret row ∧
    InterpND_init g row (method (options c)) (x_interp_val (options c)) false opts
      = Ret it ∧
    interps c' = dict_set (y_interp_name sp) it (interps c) ∧
    interp_to_cp c' = <[y_interp_name sp := y_cp_name sp]> (interp_to_cp c) ∧
    options c' = options c.
Proof.
  destruct (sparsity_dense_block B n_interp n_cp) as (rows & cols & Hr & Hc & _).
  unfold setup_spline, m_bind, m_get, m_lift, m_modify. rewrite Hr, Hc.
  destruct (call_host (add_output _ _ _) c) as [r1 c1] eqn:E1.
  apply call_host_inv in E1 as [[-> ->]|(e & -> & ->)]; [|done].
  destruct (default_y_cp_val _ _ _) as [v|e]; [|done].
  destruct (call_host (add_input _ _) _) as [r2 c2] eqn:E2.
  apply call_host_inv in E2 as [[-> ->]|(e & -> & ->)]; [|done].
  destruct (call_host (declare_partials _ _ _ _) _) as [r3 c3] eqn:E3.
  apply call_host_inv in E3 as [[-> ->]|(e & -> & ->)]; [|done].
  destruct (np_first_row v) as [row|e] eqn:Erow; [|done].
  destruct (InterpND_init _ _ _ _ _ _) as [it|e] eqn:Einit; [|done].
  intros [= <-]. by exists v, row, it.
Qed.

Lemma setup_loop_engines g n_cp opts B n_interp l (c c' : Comp) :
  NoDup (y_interp_name <$> l) →
  m_for l (setup_spline g n_cp opts B n_interp) c = (Ret tt, c') →
  options c' = options c ∧
  (∀ name it cp, name ∉ y_interp_name <$> l →
     (name, it) ∈ interps c → interp_to_cp c !! name = Some cp →
     (name, it) ∈ interps c' ∧ interp_to_cp c' !! name = Some cp) ∧
  ∀ sp, sp ∈ l →
    ∃ v row it,
      default_y_cp_val B n_cp (y_cp_val sp) = Ret v ∧
      np_first_row v = Ret row ∧
      InterpND_init g row (method (options c)) (x_interp_val (options c)) false opts
        = Ret it ∧
      (y_interp_name sp, it) ∈ interps c' ∧
      interp_to_cp c' !! y_interp_name sp = Some (y_cp_name sp).
Proof.
  revert c. induction l as [|sp l IH]; intros c Hnd; cbn [m_for].
  { intros [= <-]. split_and!; [done|done|]. by intros sp ?%elem_of_nil. }
  rewrite fmap_cons in Hnd. apply NoDup_cons in Hnd as [Hfresh Hnd].
  unfold m_bind at 1.
  destruct (setup_spline _ _ _ _ _ sp c) as [[[]|e] c1] eqn:E1; [|done].
  apply setup_spline_ok in E1 as (v & row & it & Hv & Hrow & Hit & Hi & Hcp & Ho).
  intros (Ho' & Hkeep & Hall)%IH; [|done]. split_and!.
  - congruence.
  - intros name it' cp Hname Hin Hlook.
    rewrite fmap_cons, not_elem_of_cons in Hname. destruct Hname as [Hne Hname].
    apply Hkeep; [done| |].
    + rewrite Hi. by apply dict_set_elem_of_other.
    + rewrite Hcp. by rewrite lookup_insert_ne.
  - intros sp' [->|Hsp]%elem_of_cons.
    + exists v, row, it. split_and!; [done..| |].
      * apply (Hkeep _ it (y_cp_name sp)); [done| |].
        -- rewrite Hi. apply dict_set_elem_of_new.
        -- rewrite Hcp. apply lookup_insert_eq.
      * apply (Hkeep _ it (y_cp_name sp)); [done| |].
        -- rewrite Hi. apply dict_set_elem_of_new.
        -- rewrite Hcp. apply lookup_insert_eq.
    + destruct (Hall sp' Hsp) as (v' & row' & it' & ? & ? & ? & ? & ?).
      exists v', row', it'. rewrite <-Ho. done.
Qed.

(** X7.  When [setup] completes for splines with distinct output names, every
    spline has its engine: the one built from the resolved grid, the first
    batch row of its default control values, the method, the query
    locations and the method options, with bounds checking off; and its
    output is mapped to its control-point name. *)
Theorem setup_binds_engines (c c' : Comp) g n_cp sp :
  NoDup (y_interp_name <$> _spline_cache c) →
  resolve_grid (msginfo c) (options c) = Ret (g, n_cp) →
  setup c = (Ret tt, c') →
  sp ∈ _spline_cache c →
  ∃ v row it,
    default_y_cp_val (vec_size (options c)) n_cp (y_cp_val sp) = Ret v ∧
    np_first_row v = Ret row ∧
    InterpND_init g row (method (options c)) (x_interp_val (options c)) false
      (interp_options (options c)) = Ret it ∧
    (y_interp_name sp, it) ∈ interps c' ∧
    interp_to_cp c' !! y_interp_name sp = Some (y_cp_name sp).
Proof.
  intros Hnd Hg. unfold setup, m_bind at 1, m_get. unfold m_bind at 1, m_lift.
  rewrite Hg. unfold m_bind at 1, m_modify. cbn [fst snd]. unfold m_bind at 1.
  destruct (m_for _ _ _) as [[[]|e] c1] eqn:E1; [|done].
  apply setup_loop_engines in E1 as (Ho & _ & Hall); [|done].
  cbn [set_n_cp options] in Hall.
  intros Hfin Hsp. destruct (Hall sp Hsp) as (v & row & it & ? & ? & ? & Hin & Hcp).
  exists v, row, it. split_and!; [done..| |].
  - destruct (String.prefix _ _).
    + apply call_host_inv in Hfin as [[_ ->]|(e & ? & _)]; done.
    + by injection Hfin as <-.
  - destruct (String.prefix _ _).
    + apply call_host_inv in Hfin as [[_ ->]|(e & ? & _)]; done.
    + by injection Hfin as <-.
Qed.

(** X8.  With the options as [_declare_options] leaves them, neither grid option
    is set, and [setup] raises the [ValueError] that asks for one of them,
    whatever the query locations and the registered splines. *)
Theorem setup_with_declared_defaults_raises (c : Comp) x opts :
  options c = declared_options x opts →
  setup c =
    (Raise (ValueError (msginfo c +:+
                          ": Either option 'x_cp_val' or 'num_cp' must be set.")), c).
Proof.
  intros Ho. unfold setup, m_bind, m_get, m_lift, resolve_grid.
  by rewrite Ho.
Qed.

(** X9.  With batch size 0 a spline without default control values is declared
    to the host (with an empty pattern), and then [setup] raises the
    [IndexError] of taking the first batch row of its control values. *)
Theorem setup_zero_batch_raises (c : Comp) g n_cp sp rest :
  vec_size (options c) = 0 →
  _spline_cache c = sp :: rest →
  y_cp_val sp = None →
  resolve_grid (msginfo c) (options c) = Ret (g, n_cp) →
  let calls :=
    [add_output (y_interp_name sp)
       (np_ones [0; length (x_interp_val (options c))]) (y_units sp);
     add_input (y_cp_name sp) (np_ones [0; n_cp]);
     declare_partials (y_interp_name sp) (y_cp_name sp) [] []] in
  (∀ k call, calls !! k = Some call →
             host_refuses (host_calls c ++ take k calls) call = None) →
  ∃ msg c',
    setup c = (Raise (IndexError msg), c') ∧
    host_calls c' = host_calls c ++ calls ∧ interps c' = interps c.
Proof.
  intros HB Hc Hl Hg calls Hh.
  pose proof (Hh 0 _ eq_refl) as H0. pose proof (Hh 1 _ eq_refl) as H1.
  pose proof (Hh 2 _ eq_refl) as H2. subst calls. cbn [take] in H0, H1, H2.
  rewrite app_nil_r in H0.
  assert (sparsity_rows 0 (length (x_interp_val (options c))) n_cp = Ret []) as Hr.
  { by rewrite sparsity_rows_eq. }
  assert (sparsity_cols 0 (length (x_interp_val (options c))) n_cp = Ret []) as Hcl.
  { by rewrite sparsity_cols_eq. }
  unfold setup, m_bind at 1, m_get. unfold m_bind at 1, m_lift. rewrite Hg.
  unfold m_bind at 1, m_modify. cbn [fst snd]. rewrite Hc, HB. cbn [m_for].
  unfold m_bind at 1, m_bind at 1.
  unfold setup_spline, m_bind, m_get, m_lift, m_modify, call_host.
  cbn [set_n_cp set_host_calls set_interp_to_cp host_calls options].
  rewrite H0, Hl.
  cbn [default_y_cp_val set_n_cp set_host_calls set_interp_to_cp host_calls].
  rewrite H1, Hr, Hcl.
  cbn [set_n_cp set_host_calls set_interp_to_cp host_calls].
  rewrite <-app_assoc. cbn [app]. rewrite H2.
  cbn [np_first_row np_ones np_full shape]. rewrite decide_False by lia.
  eexists _, _. split; [reflexivity|].
  cbn [host_calls interps set_host_calls set_interp_to_cp set_n_cp].
  by rewrite <-!app_assoc.
Qed.
End setup_engines.

Lemma setup_binds_engines_witness :
  ∃ it, ("y", it) ∈ interps (setup scenario_B).2 ∧
        interp_to_cp (setup scenario_B).2 !! "y" = Some "ycp".
Proof.
  destruct (setup_binds_engines scenario_B (setup scenario_B).2
              (GridRange [0; 1; 2]) 3 (mk_spline_args "ycp" "y" None None))
    as (v & row & it & _ & _ & _ & Hin & Hcp).
  - apply (bool_decide_unpack _). vm_compute. exact I.
  - reflexivity.
  - vm_compute. reflexivity.
  - vm_compute. left.
  - exists it. split; assumption.
Defined.

Lemma setup_with_declared_defaults_raises_witness :
  setup scenario_defaults =
    (Raise (ValueError
              "SplineComp (comp): Either option 'x_cp_val' or 'num_cp' must be set."),
     scenario_defaults).
Proof.
  apply (setup_with_declared_defaults_raises scenario_defaults [5; 15]%Z tt).
  reflexivity.
Defined.

Lemma setup_zero_batch_raises_witness :
  ∃ msg c', setup scenario_zero = (Raise (IndexError msg), c') ∧
            length (host_calls c') = 3.
Proof.
  destruct (setup_zero_batch_raises scenario_zero (GridRange [0; 1; 2]) 3
              (mk_spline_args "ycp" "y" None None) [])
    as (msg & c' & Hs & Hc & _).
  - reflexivity.
  - reflexivity.
  - reflexivity.
  - reflexivity.
  - intros k call _. reflexivity.
  - exists msg, c'. split; [exact Hs|]. rewrite Hc. reflexivity.
Defined.
